(** * Layendan/player: the media-player control core

    A shallow embedding of the three pieces of logic of the player:

    - [SourceSelection]: [normalizeSrc] and the selection effect of
      [useSourceSelection] (controller/source-selection.ts);
    - [UseHLS]: the [onLevelLoaded] and [onError] callbacks of [useHLS]
      (providers/hls/use-hls.ts);
    - [RequestManager]: the request handlers and the programmatic actions
      of [createMediaRequestManager] (controller/request-manager).

    Around them: [VideoProviderLoader] (providers/video/loader),
    [SourceLoading] (the setup and load effects of [useSourceSelection]),
    [UseHLSRest] (listener subscriptions and the live-sync loop) and
    [RequestManagerRest] (the [canFullscreen] effect).

    JavaScript numbers are modelled by [JSNumber.num]: [NaN], the two
    infinities and exact rational finite values.  Rounding of IEEE doubles
    and the sign of zero are not part of the model; every comparison the
    code makes ([Math.min], [Math.max], [===], [>], [>=],
    [Number.isFinite]) follows the ECMAScript rules for [NaN] and the
    infinities.  Of the arithmetic, the proofs use only the order of
    [x - 0.1], [x] and [x + 0.1], which rounding to nearest keeps.
    Where the code turns a computed number into a decision, the
    comparison [Math.abs(seekableEnd - boundTime) >= 2] of the seek
    handler, rounding can change the outcome: that comparison is made on
    binary64 floats, in [Binary64], which also has the clamp of the seek
    handler on floats. *)

From Stdlib Require Import QArith Lqa Floats.
From stdpp Require Import gmap strings list.

(* ===================================================================== *)
(** ** JavaScript numbers *)
(* ===================================================================== *)

Module JSNumber.

Inductive num : Type :=
| NaN
| NegInf
| PosInf
| Fin (q : Q).

Definition isFinite (x : num) : bool :=
  match x with Fin _ => true | _ => false end.

Definition isNaN (x : num) : bool :=
  match x with NaN => true | _ => false end.

(** [x + y]: [Infinity + -Infinity] is [NaN]. *)
Definition add (x y : num) : num :=
  match x, y with
  | NaN, _ | _, NaN => NaN
  | PosInf, NegInf | NegInf, PosInf => NaN
  | PosInf, _ | _, PosInf => PosInf
  | NegInf, _ | _, NegInf => NegInf
  | Fin a, Fin b => Fin (a + b)%Q
  end.

(** [x - y]. *)
Definition sub (x y : num) : num :=
  match x, y with
  | NaN, _ | _, NaN => NaN
  | PosInf, PosInf | NegInf, NegInf => NaN
  | PosInf, _ | _, NegInf => PosInf
  | NegInf, _ | _, PosInf => NegInf
  | Fin a, Fin b => Fin (a - b)%Q
  end.

(** [x <= y]: false as soon as one side is [NaN]. *)
Definition leb (x y : num) : bool :=
  match x, y with
  | NaN, _ | _, NaN => false
  | NegInf, _ => true
  | _, PosInf => true
  | _, NegInf => false
  | PosInf, _ => false
  | Fin a, Fin b => Qle_bool a b
  end.

(** [x < y]. *)
Definition ltb (x y : num) : bool :=
  match x, y with
  | NaN, _ | _, NaN => false
  | _, NegInf => false
  | NegInf, _ => true
  | PosInf, _ => false
  | _, PosInf => true
  | Fin a, Fin b => negb (Qle_bool b a)
  end.

Definition gtb (x y : num) : bool := ltb y x.

(** [x === y] on numbers: [NaN] differs from everything. *)
Definition strict_eq (x y : num) : bool :=
  match x, y with
  | NegInf, NegInf | PosInf, PosInf => true
  | Fin a, Fin b => Qeq_bool a b
  | _, _ => false
  end.

(** [Math.max(x, y)]: [NaN] if either argument is. *)
Definition Math_max (x y : num) : num :=
  match x, y with
  | NaN, _ | _, NaN => NaN
  | _, _ => if leb x y then y else x
  end.

(** [Math.min(x, y)]: [NaN] if either argument is. *)
Definition Math_min (x y : num) : num :=
  match x, y with
  | NaN, _ | _, NaN => NaN
  | _, _ => if leb x y then x else y
  end.

End JSNumber.

Import JSNumber.

(** The same clamp on the kernel's binary64 floats. *)
Module Binary64.

Definition Math_max (x y : float) : float :=
  if (PrimFloat.is_nan x || PrimFloat.is_nan y)%bool then PrimFloat.nan
  else if PrimFloat.leb x y then y else x.

Definition Math_min (x y : float) : float :=
  if (PrimFloat.is_nan x || PrimFloat.is_nan y)%bool then PrimFloat.nan
  else if PrimFloat.leb x y then x else y.

(** [0.1], the double nearest to one tenth. *)
Definition tenth : float := PrimFloat.div 1%float 10%float.

Definition boundTime (seekableStart seekableEnd detail : float) : float :=
  Math_min
    (Math_max (PrimFloat.add seekableStart tenth) detail)
    (PrimFloat.sub seekableEnd tenth).

(** The double nearest to an integer. *)
Definition of_Z (z : Z) : float :=
  SF2Prim (binary_normalize prec emax z 0 false).

(** The double a number of the model stands for.  A finite value [n/d] goes
    to the quotient of the doubles of [n] and [d]: this is the double of
    the same value when the value is a double whose [n] and [d] are doubles
    too (every double of magnitude at least [2^-970], or zero), and the
    double nearest to [n/d] for a decimal of up to 15 digits. *)
Definition of_num (x : num) : float :=
  match x with
  | NaN => PrimFloat.nan
  | NegInf => PrimFloat.neg_infinity
  | PosInf => PrimFloat.infinity
  | Fin q => PrimFloat.div (of_Z (Qnum q)) (of_Z (Zpos (Qden q)))
  end.

(** [x >= y]. *)
Definition geb (x y : float) : bool := PrimFloat.leb y x.

Definition Math_abs (x : float) : float := PrimFloat.abs x.

End Binary64.

(* ===================================================================== *)
(** ** Source selection (controller/source-selection.ts) *)
(* ===================================================================== *)

Module SourceSelection.

(** [MediaSrc['src']]: a URL string, or an object handle ([MediaStream],
    [MediaSource], [Blob]) known by its identity. *)
Inductive SrcValue : Type :=
| SrcString (s : string)
| SrcObject (handle : nat).

#[global] Instance SrcValue_eq_dec : EqDecision SrcValue.
Proof. solve_decision. Defined.

Definition isString (v : SrcValue) : bool :=
  match v with SrcString _ => true | SrcObject _ => false end.

(** [src.startsWith('blob:')], asked of strings only. *)
Definition startsWith_blob (v : SrcValue) : bool :=
  match v with
  | SrcString s => String.prefix "blob:" s
  | SrcObject _ => false
  end.

(** A normalized source: the type is always present. *)
Record MediaSrc : Type := { src : SrcValue; type : string }.

#[global] Instance MediaSrc_eq_dec : EqDecision MediaSrc.
Proof. solve_decision. Defined.

(** What the user writes: the type may be left out ([undefined]). *)
Record SrcEntry : Type := { entry_src : SrcValue; entry_type : option string }.

(** [MediaControllerProps['src']]: an array of entries, one entry (an
    object that has a [src] key), or a bare string or handle. *)
Inductive SrcProp : Type :=
| PropArray (entries : list SrcEntry)
| PropEntry (entry : SrcEntry)
| PropBare (v : SrcValue).

(** The callback given to [map]:
    [type ?? (!isString(src) || src.startsWith('blob:') ? 'video/object' : '?')]. *)
Definition normalizeEntry (e : SrcEntry) : MediaSrc :=
  {| src := entry_src e;
     type := match entry_type e with
             | Some t => t
             | None =>
                 if negb (isString (entry_src e)) || startsWith_blob (entry_src e)
                 then "video/object" else "?"
             end |}.

Definition normalizeSrc (p : SrcProp) : list MediaSrc :=
  map normalizeEntry
    match p with
    | PropArray entries => entries
    | PropEntry entry => [entry]
    | PropBare v => [{| entry_src := v; entry_type := None |}]
    end.

Inductive MediaType : Type := video | audio | unknown.

(** The three loader instances built by [useSourceSelection]. *)
Inductive LoaderName : Type := HLS_LOADER | VIDEO_LOADER | AUDIO_LOADER.

#[global] Instance LoaderName_eq_dec : EqDecision LoaderName.
Proof. solve_decision. Defined.

(** [MediaProviderLoader]: the capability probe, the media type it gives,
    whether the optional [preconnect] is there; [name] stands for the
    identity of the object. *)
Record MediaProviderLoader : Type := {
  name : LoaderName;
  canPlay : MediaSrc -> bool;
  mediaType : MediaSrc -> MediaType;
  has_preconnect : bool
}.

(** [$loaders]. *)
Definition loaders_of (preferNativeHLS : bool)
    (HLS VIDEO AUDIO : MediaProviderLoader) : list MediaProviderLoader :=
  if preferNativeHLS then [VIDEO; AUDIO; HLS] else [HLS; VIDEO; AUDIO].

(** [loaders.find((loader) => loader.canPlay(src))]. *)
Definition findLoader (loaders : list MediaProviderLoader) (s : MediaSrc)
  : option MediaProviderLoader :=
  List.find (fun loader => canPlay loader s) loaders.

Definition Selection : Type := MediaSrc * option MediaProviderLoader.

Definition noSelection : Selection := ({| src := SrcString ""; type := "" |}, None).

(** One turn of [for (const src of sources)]. *)
Definition selectStep (loaders : list MediaProviderLoader)
    (acc : Selection) (s : MediaSrc) : Selection :=
  match findLoader loaders s with
  | Some loader => (s, Some loader)
  | None => acc
  end.

(** The whole loop, from [newSource = { src: '', type: '' }] and
    [newLoader = null]. *)
Definition selectSource (sources : list MediaSrc)
    (loaders : list MediaProviderLoader) : Selection :=
  fold_left (selectStep loaders) sources noSelection.

(** What the effect hands to [delegate.dispatch], plus the call of the
    loader's [preconnect]. *)
Inductive Dispatch : Type :=
| source_change (detail : MediaSrc)
| media_type_change (detail : MediaType)
| provider_change_null
| loader_preconnect (loader : LoaderName)
| provider_loader_change (detail : option LoaderName).

Definition sourceDiffers (a b : MediaSrc) : bool :=
  negb (bool_decide (src a = src b)) || negb (bool_decide (type a = type b)).

Definition loaderDiffers (a b : option MediaProviderLoader) : bool :=
  negb (bool_decide (name <$> a = name <$> b)).

(** The selection effect (the second [effect] of [useSourceSelection]):
    the events it dispatches, in order. *)
Definition selectionEffect (sources : list MediaSrc) (currentSource : MediaSrc)
    (currentLoader : option MediaProviderLoader)
    (loaders : list MediaProviderLoader) : list Dispatch :=
  let '(newSource, newLoader) := selectSource sources loaders in
  (if sourceDiffers newSource currentSource
   then [source_change newSource;
         media_type_change
           match newLoader with
           | Some l => mediaType l newSource
           | None => unknown
           end]
   else [])
  ++
  (if loaderDiffers newLoader currentLoader
   then [provider_change_null]
        ++ match newLoader with
           | Some l => if has_preconnect l then [loader_preconnect (name l)] else []
           | None => []
           end
        ++ [provider_loader_change (name <$> newLoader)]
   else []).

(** The server branch ([__SERVER__]): the same loop writing the store. *)
Definition serverSelect (sources : list MediaSrc)
    (loaders : list MediaProviderLoader)
    (init : MediaSrc * MediaType * option MediaProviderLoader)
  : MediaSrc * MediaType * option MediaProviderLoader :=
  fold_left
    (fun acc s =>
       match findLoader loaders s with
       | Some loader => (s, mediaType loader s, Some loader)
       | None => acc
       end)
    sources init.

(** *** Vocabulary of the specification *)

(** The rule of the specification for one user entry [e] and its normalized
    form [s]: the source is kept; a given type is kept; without a type, a
    handle or a [blob:] string gets ["video/object"], any other string
    gets ["?"]. *)
Definition normalized_as (e : SrcEntry) (s : MediaSrc) : Prop :=
  src s = entry_src e ∧
  match entry_type e with
  | Some t => type s = t
  | None =>
      match entry_src e with
      | SrcObject _ => type s = "video/object"
      | SrcString url =>
          ((∃ rest, url = "blob:" +:+ rest) → type s = "video/object") ∧
          ((¬ ∃ rest, url = "blob:" +:+ rest) → type s = "?")
      end
  end.

(** *** Sample values *)

(** A loader that plays exactly the sources declared with type [t]. *)
Definition plays_type (n : LoaderName) (t : string) (mt : MediaType)
  : MediaProviderLoader :=
  {| name := n;
     canPlay := fun s => bool_decide (type s = t);
     mediaType := fun _ => mt;
     has_preconnect := false |}.

Definition sample_loaders : list MediaProviderLoader :=
  loaders_of false
    (plays_type HLS_LOADER "application/x-mpegurl" video)
    (plays_type VIDEO_LOADER "video/mp4" video)
    (plays_type AUDIO_LOADER "audio/mpeg" audio).

Definition sample_A : MediaSrc :=
  {| src := SrcString "a.mp4"; type := "video/mp4" |}.

Definition sample_B : MediaSrc :=
  {| src := SrcString "b.m3u8"; type := "application/x-mpegurl" |}.

End SourceSelection.

(* ===================================================================== *)
(** ** The HLS engine callbacks (providers/hls/use-hls.ts) *)
(* ===================================================================== *)

Module UseHLS.

(** The fields of [HLS.LevelLoadedData.details] that [onLevelLoaded] reads:
    the playlist type ([EXT-X-PLAYLIST-TYPE]: ['EVENT'], ['VOD'] or [null]),
    [live] and [totalduration]. *)
Record LevelDetails : Type := {
  details_type : option string;
  live : bool;
  totalduration : num
}.

(** The fields of [HLS.ErrorData] that [onError] reads; [error_type] is one
    of the strings of [HLS.ErrorTypes]. *)
Record ErrorData : Type := {
  error_type : string;
  fatal : bool
}.

(** An engine instance: its identity and the [media] element attached to it
    ([null] before [attachMedia]). *)
Record HlsInstance : Type := {
  instance_id : nat;
  media : option nat
}.

(** What the callbacks do to the outside, in order. *)
Inductive Effect : Type :=
| log_error_group (eventType : string)
| stream_type_change (detail : string)
| duration_change (detail : num)
| media_dispatch_canplay (element : nat)
| startLoad (instance : nat)
| recoverMediaError (instance : nat)
| destroy (instance : nat).

Record State : Type := {
  DEV : bool;                       (* __DEV__ *)
  logger : bool;                    (* is there a logger *)
  store_canPlay : bool;             (* $store.canPlay *)
  instance : option HlsInstance;    (* $instance *)
  trace : list Effect
}.

Definition emit (e : Effect) (st : State) : State :=
  {| DEV := DEV st; logger := logger st; store_canPlay := store_canPlay st;
     instance := instance st; trace := trace st ++ [e] |}.

(** [$instance.set(v)]. *)
Definition set_instance (v : option HlsInstance) (st : State) : State :=
  {| DEV := DEV st; logger := logger st; store_canPlay := store_canPlay st;
     instance := v; trace := trace st |}.

(** How a callback ends. *)
Inductive Completion : Type :=
| Returns
| ThrowsTypeError.

(** The [detail] of the stream-type-change event. *)
Definition streamTypeOf (details : LevelDetails) : string :=
  if live details
  then if bool_decide (details_type details = Some "EVENT")
          && isFinite (totalduration details)
       then "live:dvr" else "live"
  else "on-demand".

Definition onLevelLoaded (details : LevelDetails) (st : State)
  : Completion * State :=
  if store_canPlay st then (Returns, st)
  else
    let st := emit (stream_type_change (streamTypeOf details)) st in
    let st := emit (duration_change (totalduration details)) st in
    (* [$instance()!.media!.dispatchEvent(...)] *)
    match instance st with
    | Some i =>
        match media i with
        | Some el => (Returns, emit (media_dispatch_canplay el) st)
        | None => (ThrowsTypeError, st)
        end
    | None => (ThrowsTypeError, st)
    end.

(** [$instance()?.f()]. *)
Definition call_instance (f : nat -> Effect) (st : State) : State :=
  match instance st with
  | Some i => emit (f (instance_id i)) st
  | None => st
  end.

Definition onError (eventType : string) (data : ErrorData) (st : State) : State :=
  let st := if DEV st && logger st then emit (log_error_group eventType) st else st in
  if fatal data then
    if String.eqb (error_type data) "networkError" then
      call_instance startLoad st
    else if String.eqb (error_type data) "mediaError" then
      call_instance recoverMediaError st
    else
      set_instance None (call_instance destroy st)
  else st.

(** *** Vocabulary of the specification *)

(** The diagnostics [onError] writes before anything else. *)
Definition diagnostics (eventType : string) (st : State) : list Effect :=
  if DEV st && logger st then [log_error_group eventType] else [].

(** The stream type as the specification words it: ["live:dvr"] exactly
    when the stream is live and the total duration is finite. *)
Definition dvr_iff_live_and_finite (details : LevelDetails) (st : State) : Prop :=
  store_canPlay st = false →
  (stream_type_change "live:dvr" ∈ trace (onLevelLoaded details st).2
   ↔ live details = true ∧ isFinite (totalduration details) = true).

(** *** Sample values *)

Definition sample_state : State :=
  {| DEV := false; logger := false; store_canPlay := false;
     instance := Some {| instance_id := 1; media := Some 7 |};
     trace := [] |}.

(** A live playlist without [EXT-X-PLAYLIST-TYPE], thirty seconds long. *)
Definition sample_live_details : LevelDetails :=
  {| details_type := None; live := true; totalduration := Fin 30 |}.

Definition sample_network_error : ErrorData :=
  {| error_type := "networkError"; fatal := true |}.

End UseHLS.

(* ===================================================================== *)
(** ** The media request manager (controller/request-manager) *)
(* ===================================================================== *)

Module RequestManager.

(** *** Values *)

(** [RE.MediaFullscreenRequestTarget]. *)
Inductive FullscreenTarget : Type :=
| target_media            (* 'media' *)
| target_provider         (* 'provider' *)
| target_prefer_media.    (* 'prefer-media' *)

(** What a [throw] or a rejected promise carries: an [Error] built by the
    manager, the [TypeError] of a property access on [null], or whatever a
    collaborator rejects with. *)
Inductive Thrown : Type :=
| Error (message : string)
| TypeError (message : string)
| Reason (r : string).

(** [coerceToError] is a helper of utils/error: the detail of a failure
    event is kept as the call itself, [coerceToError e]. *)
Inductive CoercedError : Type :=
| coerceToError (e : Thrown).

(** The sixteen request events, with the [detail] the handlers read. *)
Inductive Request : Type :=
| media_start_loading
| media_mute_request
| media_unmute_request
| media_play_request
| media_pause_request
| media_seeking_request (detail : num)
| media_seek_request (detail : num)
| media_live_edge_request
| media_volume_change_request (detail : num)
| media_enter_fullscreen_request (detail : option FullscreenTarget)
| media_exit_fullscreen_request (detail : option FullscreenTarget)
| media_resume_user_idle_request
| media_pause_user_idle_request
| media_show_poster_request
| media_hide_poster_request
| media_loop_request.

Record RequestEvent : Type := {
  request : Request;
  isOriginTrusted : bool
}.

(** [event.type]. *)
Definition event_type (r : Request) : string :=
  match r with
  | media_start_loading => "media-start-loading"
  | media_mute_request => "media-mute-request"
  | media_unmute_request => "media-unmute-request"
  | media_play_request => "media-play-request"
  | media_pause_request => "media-pause-request"
  | media_seeking_request _ => "media-seeking-request"
  | media_seek_request _ => "media-seek-request"
  | media_live_edge_request => "media-live-edge-request"
  | media_volume_change_request _ => "media-volume-change-request"
  | media_enter_fullscreen_request _ => "media-enter-fullscreen-request"
  | media_exit_fullscreen_request _ => "media-exit-fullscreen-request"
  | media_resume_user_idle_request => "media-resume-user-idle-request"
  | media_pause_user_idle_request => "media-pause-user-idle-request"
  | media_show_poster_request => "media-show-poster-request"
  | media_hide_poster_request => "media-hide-poster-request"
  | media_loop_request => "media-loop-request"
  end.

(** The events given to [handler.handle]. *)
Inductive HandledEvent : Type :=
| can_load
| play_fail (detail : CoercedError) (autoplay : option bool)
| fullscreen_error (detail : CoercedError).

(** *** State *)

(** The fields of the media store ([$media]) the manager reads or writes. *)
Record MediaStore : Type := {
  canLoad : bool;
  canPlay : bool;
  canSeek : bool;
  paused : bool;
  ended : bool;
  muted : bool;
  volume : num;
  seeking : bool;
  seekableStart : num;
  seekableEnd : num;
  live : bool;
  liveEdge : bool;
  liveSyncPosition : option num;
  userBehindLiveEdge : bool;
  attemptingAutoplay : bool;
  canLoadPoster : option bool
}.

(** [FullscreenAdapter]: the two flags, and how the promises of [enter()]
    and [exit()] settle ([None]: resolved). *)
Record FullscreenAdapter : Type := {
  fs_supported : bool;
  fs_active : bool;
  enter_rejects : option Thrown;
  exit_rejects : option Thrown
}.

(** [ScreenOrientationAdapter]. *)
Record ScreenOrientationAdapter : Type := {
  o_supported : bool;
  o_locked : bool;
  lock_rejects : option Thrown;
  unlock_rejects : option Thrown
}.

(** [MediaProvider]: the three settable properties, how the promises of
    [play()] and [pause()] settle, and the optional [fullscreen]. *)
Record MediaProvider : Type := {
  p_muted : bool;
  p_volume : num;
  p_currentTime : num;
  play_rejects : option Thrown;
  pause_rejects : option Thrown;
  p_fullscreen : option FullscreenAdapter
}.

(** Which adapter a fullscreen call goes to. *)
Inductive FsOwner : Type := PlayerFs | ProviderFs.

(** Calls that leave the manager, in order. *)
Inductive Effect : Type :=
| stopPropagation
| log_request (type : string)
| log_error (label : string) (e : Thrown)
| handle (e : HandledEvent)
| provider_set_muted (v : bool)
| provider_set_volume (v : num)
| provider_set_currentTime (v : num)
| provider_play
| provider_pause
| fs_enter (o : FsOwner)
| fs_exit (o : FsOwner)
| orientation_lock (lockType : string)
| orientation_unlock
| requestAnimationFrame_loop
| null_provider_dereference.

(** Does an effect reach into the media provider. *)
Definition touches_provider (e : Effect) : bool :=
  match e with
  | provider_set_muted _ | provider_set_volume _ | provider_set_currentTime _
  | provider_play | provider_pause
  | fs_enter ProviderFs | fs_exit ProviderFs => true
  | _ => false
  end.

Record World : Type := {
  DEV : bool;                                   (* __DEV__ *)
  logger : bool;                                (* is there a logger *)
  player : bool;                                (* is $player() an element *)
  media : MediaStore;                           (* $media *)
  provider : option MediaProvider;              (* $provider *)
  fullscreen : FullscreenAdapter;
  orientation : ScreenOrientationAdapter;
  fullscreenOrientation : option string;        (* $props.$fullscreenOrientation *)
  queue : gmap string RequestEvent;             (* requests._queue *)
  isSeeking : bool;                             (* requests._$isSeeking *)
  isLooping : bool;                             (* requests._$isLooping *)
  isReplay : bool;                              (* requests._$isReplay *)
  idle_paused : bool;                           (* user.idle.paused *)
  trace : list Effect
}.

Definition with_media (f : MediaStore -> MediaStore) (w : World) : World :=
  {| DEV := DEV w; logger := logger w; player := player w; media := f (media w);
     provider := provider w; fullscreen := fullscreen w;
     orientation := orientation w; fullscreenOrientation := fullscreenOrientation w;
     queue := queue w; isSeeking := isSeeking w; isLooping := isLooping w;
     isReplay := isReplay w; idle_paused := idle_paused w; trace := trace w |}.

Definition with_provider (f : option MediaProvider -> option MediaProvider)
    (w : World) : World :=
  {| DEV := DEV w; logger := logger w; player := player w; media := media w;
     provider := f (provider w); fullscreen := fullscreen w;
     orientation := orientation w; fullscreenOrientation := fullscreenOrientation w;
     queue := queue w; isSeeking := isSeeking w; isLooping := isLooping w;
     isReplay := isReplay w; idle_paused := idle_paused w; trace := trace w |}.

Definition with_queue (f : gmap string RequestEvent -> gmap string RequestEvent)
    (w : World) : World :=
  {| DEV := DEV w; logger := logger w; player := player w; media := media w;
     provider := provider w; fullscreen := fullscreen w;
     orientation := orientation w; fullscreenOrientation := fullscreenOrientation w;
     queue := f (queue w); isSeeking := isSeeking w; isLooping := isLooping w;
     isReplay := isReplay w; idle_paused := idle_paused w; trace := trace w |}.

Definition with_isSeeking (v : bool) (w : World) : World :=
  {| DEV := DEV w; logger := logger w; player := player w; media := media w;
     provider := provider w; fullscreen := fullscreen w;
     orientation := orientation w; fullscreenOrientation := fullscreenOrientation w;
     queue := queue w; isSeeking := v; isLooping := isLooping w;
     isReplay := isReplay w; idle_paused := idle_paused w; trace := trace w |}.

Definition with_isLooping (v : bool) (w : World) : World :=
  {| DEV := DEV w; logger := logger w; player := player w; media := media w;
     provider := provider w; fullscreen := fullscreen w;
     orientation := orientation w; fullscreenOrientation := fullscreenOrientation w;
     queue := queue w; isSeeking := isSeeking w; isLooping := v;
     isReplay := isReplay w; idle_paused := idle_paused w; trace := trace w |}.

Definition with_isReplay (v : bool) (w : World) : World :=
  {| DEV := DEV w; logger := logger w; player := player w; media := media w;
     provider := provider w; fullscreen := fullscreen w;
     orientation := orientation w; fullscreenOrientation := fullscreenOrientation w;
     queue := queue w; isSeeking := isSeeking w; isLooping := isLooping w;
     isReplay := v; idle_paused := idle_paused w; trace := trace w |}.

Definition with_idle_paused (v : bool) (w : World) : World :=
  {| DEV := DEV w; logger := logger w; player := player w; media := media w;
     provider := provider w; fullscreen := fullscreen w;
     orientation := orientation w; fullscreenOrientation := fullscreenOrientation w;
     queue := queue w; isSeeking := isSeeking w; isLooping := isLooping w;
     isReplay := isReplay w; idle_paused := v; trace := trace w |}.

Definition with_trace (f : list Effect -> list Effect) (w : World) : World :=
  {| DEV := DEV w; logger := logger w; player := player w; media := media w;
     provider := provider w; fullscreen := fullscreen w;
     orientation := orientation w; fullscreenOrientation := fullscreenOrientation w;
     queue := queue w; isSeeking := isSeeking w; isLooping := isLooping w;
     isReplay := isReplay w; idle_paused := idle_paused w; trace := f (trace w) |}.

Definition with_player (v : bool) (w : World) : World :=
  {| DEV := DEV w; logger := logger w; player := v; media := media w;
     provider := provider w; fullscreen := fullscreen w;
     orientation := orientation w; fullscreenOrientation := fullscreenOrientation w;
     queue := queue w; isSeeking := isSeeking w; isLooping := isLooping w;
     isReplay := isReplay w; idle_paused := idle_paused w; trace := trace w |}.

Definition store_canPlay (v : bool) (s : MediaStore) : MediaStore :=
  {| canLoad := canLoad s; canPlay := v; canSeek := canSeek s;
     paused := paused s; ended := ended s; muted := muted s; volume := volume s;
     seeking := seeking s; seekableStart := seekableStart s;
     seekableEnd := seekableEnd s; live := live s; liveEdge := liveEdge s;
     liveSyncPosition := liveSyncPosition s;
     userBehindLiveEdge := userBehindLiveEdge s;
     attemptingAutoplay := attemptingAutoplay s; canLoadPoster := canLoadPoster s |}.

Definition store_seeking (v : bool) (s : MediaStore) : MediaStore :=
  {| canLoad := canLoad s; canPlay := canPlay s; canSeek := canSeek s;
     paused := paused s; ended := ended s; muted := muted s; volume := volume s;
     seeking := v; seekableStart := seekableStart s; seekableEnd := seekableEnd s;
     live := live s; liveEdge := liveEdge s; liveSyncPosition := liveSyncPosition s;
     userBehindLiveEdge := userBehindLiveEdge s;
     attemptingAutoplay := attemptingAutoplay s; canLoadPoster := canLoadPoster s |}.

Definition store_userBehindLiveEdge (v : bool) (s : MediaStore) : MediaStore :=
  {| canLoad := canLoad s; canPlay := canPlay s; canSeek := canSeek s;
     paused := paused s; ended := ended s; muted := muted s; volume := volume s;
     seeking := seeking s; seekableStart := seekableStart s;
     seekableEnd := seekableEnd s; live := live s; liveEdge := liveEdge s;
     liveSyncPosition := liveSyncPosition s; userBehindLiveEdge := v;
     attemptingAutoplay := attemptingAutoplay s; canLoadPoster := canLoadPoster s |}.

Definition store_canLoadPoster (v : bool) (s : MediaStore) : MediaStore :=
  {| canLoad := canLoad s; canPlay := canPlay s; canSeek := canSeek s;
     paused := paused s; ended := ended s; muted := muted s; volume := volume s;
     seeking := seeking s; seekableStart := seekableStart s;
     seekableEnd := seekableEnd s; live := live s; liveEdge := liveEdge s;
     liveSyncPosition := liveSyncPosition s;
     userBehindLiveEdge := userBehindLiveEdge s;
     attemptingAutoplay := attemptingAutoplay s; canLoadPoster := Some v |}.

Definition provider_muted (v : bool) (p : MediaProvider) : MediaProvider :=
  {| p_muted := v; p_volume := p_volume p; p_currentTime := p_currentTime p;
     play_rejects := play_rejects p; pause_rejects := pause_rejects p;
     p_fullscreen := p_fullscreen p |}.

Definition provider_volume (v : num) (p : MediaProvider) : MediaProvider :=
  {| p_muted := p_muted p; p_volume := v; p_currentTime := p_currentTime p;
     play_rejects := play_rejects p; pause_rejects := pause_rejects p;
     p_fullscreen := p_fullscreen p |}.

Definition provider_currentTime (v : num) (p : MediaProvider) : MediaProvider :=
  {| p_muted := p_muted p; p_volume := p_volume p; p_currentTime := v;
     play_rejects := play_rejects p; pause_rejects := pause_rejects p;
     p_fullscreen := p_fullscreen p |}.

(** *** Control flow

    A computation reads and changes the world and either completes or
    throws.  An [async] function is run up to the settling of its promise:
    [Throw] is then the rejection, and an [await] of a rejected promise
    throws at the [await]. *)

Inductive Result (A : Type) : Type :=
| Ok (a : A)
| Throw (e : Thrown).

Arguments Ok {A} a.
Arguments Throw {A} e.

Definition M (A : Type) : Type := World -> Result A * World.

#[global] Instance M_ret : MRet M := fun A a w => (Ok a, w).

#[global] Instance M_bind : MBind M := fun A B f m w =>
  match m w with
  | (Ok a, w') => f a w'
  | (Throw e, w') => (Throw e, w')
  end.

Definition throw {A : Type} (e : Thrown) : M A := fun w => (Throw e, w).

(** [try { body } catch (e) { handler }]. *)
Definition try_catch {A : Type} (body : M A) (handler : Thrown -> M A) : M A :=
  fun w =>
    match body w with
    | (Ok a, w') => (Ok a, w')
    | (Throw e, w') => handler e w'
    end.

Definition gets {A : Type} (f : World -> A) : M A := fun w => (Ok (f w), w).

Definition modify (f : World -> World) : M unit := fun w => (Ok tt, f w).

Definition when (b : bool) (m : M unit) : M unit := if b then m else mret tt.

Definition emit (e : Effect) : M unit := modify (with_trace (fun t => t ++ [e])).

(** An awaited promise of a collaborator. *)
Definition settle (rejects : option Thrown) : M unit :=
  match rejects with
  | Some e => throw e
  | None => mret tt
  end.

(** Modelled from the spec: the [Queue] class (foundation/queue) is not
    among the sources; the spec gives it as a keyed ledger with at most one
    entry per category, where the last write wins. *)
Definition _enqueue (key : string) (item : RequestEvent) : M unit :=
  modify (with_queue (insert key item)).

(** [_delete(key)] of the same ledger. *)
Definition _delete (key : string) : M unit :=
  modify (with_queue (delete key)).

(** [handler.handle(event)]: the state manager is a collaborator. *)
Definition handler_handle (e : HandledEvent) : M unit := emit (handle e).

(** [logger?.error(label, e)] under [__DEV__]. *)
Definition dev_log_error (label : string) (e : Thrown) : M unit :=
  dev ← gets DEV;
  has ← gets logger;
  when (dev && has) (emit (log_error label e)).

(** *** The provider *)

(** [p!]: the use of a provider that may be [null]. *)
Definition nonnull (p : option MediaProvider) : M MediaProvider :=
  match p with
  | Some x => mret x
  | None =>
      emit null_provider_dereference;;
      throw (TypeError "Cannot read properties of null")
  end.

(** [p!.muted = v]. *)
Definition set_muted (p : option MediaProvider) (v : bool) : M unit :=
  nonnull p;;
  modify (with_provider (fmap (provider_muted v)));;
  emit (provider_set_muted v).

(** [p!.volume = v]. *)
Definition set_volume (p : option MediaProvider) (v : num) : M unit :=
  nonnull p;;
  modify (with_provider (fmap (provider_volume v)));;
  emit (provider_set_volume v).

(** [p!.currentTime = v]. *)
Definition set_currentTime (p : option MediaProvider) (v : num) : M unit :=
  nonnull p;;
  modify (with_provider (fmap (provider_currentTime v)));;
  emit (provider_set_currentTime v).

(** [p!.play()], up to the settling of its promise. *)
Definition call_play (p : option MediaProvider) : M unit :=
  x ← nonnull p;
  emit provider_play;;
  settle (play_rejects x).

(** [p!.pause()], up to the settling of its promise. *)
Definition call_pause (p : option MediaProvider) : M unit :=
  x ← nonnull p;
  emit provider_pause;;
  settle (pause_rejects x).

Definition notReadyMessage (dev : bool) : string :=
  if dev then "[vidstack] media is not ready - wait for `can-play` event."
  else "[vidstack] media not ready".

(** [$player()?.state.canPlay]: the state of the player element is the
    media store. *)
Definition player_canPlay (w : World) : bool := player w && canPlay (media w).

Definition throwIfNotReadyForPlayback (p : option MediaProvider) : M unit :=
  ready ← gets player_canPlay;
  if bool_decide (is_Some p) && ready then mret tt
  else
    dev ← gets DEV;
    throw (Error (notReadyMessage dev)).

(** *** Programmatic actions *)

(** [play()].  The last statement of the [try] block is
    [return provider!.play()]: the promise is handed back without an
    [await], so a rejection of it does not reach the [catch]. *)
Definition play : M unit :=
  m ← gets media;
  if negb (paused m) then mret tt
  else
    p ← gets provider;
    try_catch
      (throwIfNotReadyForPlayback p;;
       ended_now ← gets (fun w => ended (media w));
       start ← gets (fun w => seekableStart (media w));
       when ended_now (set_currentTime p (add start (Fin 0.1))))
      (fun error =>
         autoplay ← gets (fun w => attemptingAutoplay (media w));
         handler_handle (play_fail (coerceToError error) (Some autoplay));;
         throw error);;
    call_play p.

(** [pause()]. *)
Definition pause : M unit :=
  m ← gets media;
  if paused m then mret tt
  else
    p ← gets provider;
    throwIfNotReadyForPlayback p;;
    call_pause p.

(** [seekToLiveEdge()]. *)
Definition seekToLiveEdge : M unit :=
  modify (with_media (store_userBehindLiveEdge false));;
  m ← gets media;
  if negb (live m) || liveEdge m || negb (canSeek m) then mret tt
  else
    p ← gets provider;
    throwIfNotReadyForPlayback p;;
    set_currentTime p
      match liveSyncPosition m with
      | Some position => position
      | None => sub (seekableEnd m) (Fin 2)
      end.

#[global] Instance FullscreenTarget_eq_dec : EqDecision FullscreenTarget.
Proof. solve_decision. Defined.

Definition target_string (t : FullscreenTarget) : string :=
  match t with
  | target_media => "media"
  | target_provider => "provider"
  | target_prefer_media => "prefer-media"
  end.

(** The adapter a call goes to:
    [(target === 'prefer-media' && fullscreen.supported) || target === 'media'
       ? fullscreen : provider?.fullscreen]. *)
Definition select_fs (target : FullscreenTarget) (w : World)
  : option (FsOwner * FullscreenAdapter) :=
  if (bool_decide (target = target_prefer_media) && fs_supported (fullscreen w))
     || bool_decide (target = target_media)
  then Some (PlayerFs, fullscreen w)
  else
    match provider w with
    | Some p =>
        match p_fullscreen p with
        | Some a => Some (ProviderFs, a)
        | None => None
        end
    | None => None
    end.

Definition noFullscreenMessage (dev : bool) (target : FullscreenTarget) : string :=
  if dev
  then "[vidstack] fullscreen is not currently available on target `"
         +:+ target_string target +:+ "`"
  else "[vidstack] no fullscreen support".

Definition throwIfFullscreenNotSupported (target : FullscreenTarget)
    (fs : option (FsOwner * FullscreenAdapter)) : M unit :=
  match fs with
  | Some (_, a) =>
      if fs_supported a then mret tt
      else dev ← gets DEV; throw (Error (noFullscreenMessage dev target))
  | None => dev ← gets DEV; throw (Error (noFullscreenMessage dev target))
  end.

(** [await orientation.lock(lockType)]. *)
Definition await_orientation_lock (lockType : string) : M unit :=
  o ← gets orientation;
  emit (orientation_lock lockType);;
  settle (lock_rejects o).

(** [await orientation.unlock()]. *)
Definition await_orientation_unlock : M unit :=
  o ← gets orientation;
  emit orientation_unlock;;
  settle (unlock_rejects o).

(** [enterFullscreen(target = 'prefer-media')]. *)
Definition enterFullscreen (target : option FullscreenTarget) : M unit :=
  let target := default target_prefer_media target in
  fs ← gets (select_fs target);
  throwIfFullscreenNotSupported target fs;;
  match fs with
  | None => throw (TypeError "Cannot read properties of undefined")
  | Some (owner, a) =>
      if fs_active a then mret tt
      else
        lockType ← gets fullscreenOrientation;
        o ← gets orientation;
        match lockType with
        | Some t => when (o_supported o) (await_orientation_lock t)
        | None => mret tt
        end;;
        emit (fs_enter owner);;
        settle (enter_rejects a)
  end.

(** [exitFullscreen(target = 'prefer-media')]. *)
Definition exitFullscreen (target : option FullscreenTarget) : M unit :=
  let target := default target_prefer_media target in
  fs ← gets (select_fs target);
  throwIfFullscreenNotSupported target fs;;
  match fs with
  | None => throw (TypeError "Cannot read properties of undefined")
  | Some (owner, a) =>
      if negb (fs_active a) then mret tt
      else
        o ← gets orientation;
        when (o_locked o) await_orientation_unlock;;
        emit (fs_exit owner);;
        settle (exit_rejects a)
  end.

(** *** Request handlers *)

Definition onStartLoading (event : RequestEvent) : M unit :=
  m ← gets media;
  if canLoad m then mret tt
  else
    _enqueue "load" event;;
    handler_handle can_load.

Definition onMuteRequest (event : RequestEvent) : M unit :=
  m ← gets media;
  if muted m then mret tt
  else
    _enqueue "volume" event;;
    p ← gets provider;
    set_muted p true.

Definition onUnmuteRequest (event : RequestEvent) : M unit :=
  m ← gets media;
  if negb (muted m) then mret tt
  else
    _enqueue "volume" event;;
    p ← gets provider;
    set_muted p false;;
    m ← gets media;
    when (strict_eq (volume m) (Fin 0))
      (_enqueue "volume" event;;
       p ← gets provider;
       set_volume p (Fin 0.25)).

Definition onPlayRequest (event : RequestEvent) : M unit :=
  m ← gets media;
  if negb (paused m) then mret tt
  else
    try_catch
      (_enqueue "play" event;;
       p ← gets provider;
       call_play p)
      (fun e => handler_handle (play_fail (coerceToError e) None)).

Definition onPauseRequest (event : RequestEvent) : M unit :=
  m ← gets media;
  if paused m then mret tt
  else
    try_catch
      (_enqueue "pause" event;;
       p ← gets provider;
       call_pause p)
      (fun e =>
         _delete "pause";;
         dev_log_error "pause-fail" e).

Definition onSeekingRequest (event : RequestEvent) : M unit :=
  _enqueue "seeking" event;;
  modify (with_media (store_seeking true));;
  modify (with_isSeeking true).

(** The [boundTime] of [onSeekRequest]:
    [Math.min(Math.max($media.seekableStart + 0.1, event.detail),
              $media.seekableEnd - 0.1)]. *)
Definition boundTime (m : MediaStore) (detail : num) : num :=
  Math_min
    (Math_max (add (seekableStart m) (Fin 0.1)) detail)
    (sub (seekableEnd m) (Fin 0.1)).

(** The same [boundTime] as the double the code computes. *)
Definition boundTime64 (m : MediaStore) (detail : num) : float :=
  Binary64.boundTime
    (Binary64.of_num (seekableStart m)) (Binary64.of_num (seekableEnd m))
    (Binary64.of_num detail).

(** [Math.abs($media.seekableEnd - boundTime) >= 2], on doubles. *)
Definition farFromLiveEdge (m : MediaStore) (boundTime : float) : bool :=
  Binary64.geb
    (Binary64.Math_abs (PrimFloat.sub (Binary64.of_num (seekableEnd m)) boundTime))
    2%float.

(** The time written to the provider is kept as the exact [boundTime]; the
    comparison with 2 is made on [boundTime64]. *)
Definition onSeekRequest (event : RequestEvent) (detail : num) : M unit :=
  m ← gets media;
  when (ended m) (modify (with_isReplay true));;
  modify (with_isSeeking false);;
  _delete "seeking";;
  m ← gets media;
  let boundTime := boundTime m detail in
  let boundTime64 := boundTime64 m detail in
  if negb (isFinite boundTime) || negb (canSeek m) then mret tt
  else
    _enqueue "seeked" event;;
    p ← gets provider;
    set_currentTime p boundTime;;
    m ← gets media;
    when (live m && isOriginTrusted event && farFromLiveEdge m boundTime64)
      (modify (with_media (store_userBehindLiveEdge true))).

Definition onSeekToLiveEdgeRequest (event : RequestEvent) : M unit :=
  m ← gets media;
  if negb (live m) || liveEdge m || negb (canSeek m) then mret tt
  else
    _enqueue "seeked" event;;
    try_catch seekToLiveEdge (fun e => dev_log_error "seek to live edge fail" e).

Definition onVolumeChangeRequest (event : RequestEvent) (detail : num) : M unit :=
  let volume' := detail in
  m ← gets media;
  if strict_eq (volume m) volume' then mret tt
  else
    _enqueue "volume" event;;
    p ← gets provider;
    set_volume p volume';;
    m ← gets media;
    when (gtb volume' (Fin 0) && muted m)
      (_enqueue "volume" event;;
       p ← gets provider;
       set_muted p false).

Definition onEnterFullscreenRequest (event : RequestEvent)
    (detail : option FullscreenTarget) : M unit :=
  try_catch
    (_enqueue "fullscreen" event;;
     enterFullscreen detail)
    (fun e => handler_handle (fullscreen_error (coerceToError e))).

Definition onExitFullscreenRequest (event : RequestEvent)
    (detail : option FullscreenTarget) : M unit :=
  try_catch
    (_enqueue "fullscreen" event;;
     exitFullscreen detail)
    (fun e => handler_handle (fullscreen_error (coerceToError e))).

Definition onResumeIdlingRequest (event : RequestEvent) : M unit :=
  _enqueue "userIdle" event;;
  modify (with_idle_paused false).

Definition onPauseIdlingRequest (event : RequestEvent) : M unit :=
  _enqueue "userIdle" event;;
  modify (with_idle_paused true).

Definition onShowPosterRequest (event : RequestEvent) : M unit :=
  modify (with_media (store_canLoadPoster true)).

Definition onHidePosterRequest (event : RequestEvent) : M unit :=
  modify (with_media (store_canLoadPoster false)).

(** The callback [onLoopRequest] gives to [requestAnimationFrame]. *)
Definition loopCallback : M unit :=
  try_catch
    (modify (with_isLooping true);;
     modify (with_isReplay true);;
     play)
    (fun e =>
       modify (with_isLooping false);;
       modify (with_isReplay false)).

(** [onLoopRequest] only schedules [loopCallback]. *)
Definition onLoopRequest (event : RequestEvent) : M unit :=
  emit requestAnimationFrame_loop.

(** A call of an [async] function whose promise nobody keeps: a rejection
    does not come back to the caller. *)
Definition not_awaited (m : M unit) : M unit :=
  try_catch m (fun _ => mret tt).

(** [eventHandlers[event.type](event)]. *)
Definition eventHandlers (event : RequestEvent) : M unit :=
  match request event with
  | media_start_loading => onStartLoading event
  | media_mute_request => onMuteRequest event
  | media_unmute_request => onUnmuteRequest event
  | media_play_request => not_awaited (onPlayRequest event)
  | media_pause_request => not_awaited (onPauseRequest event)
  | media_seeking_request _ => onSeekingRequest event
  | media_seek_request detail => onSeekRequest event detail
  | media_live_edge_request => onSeekToLiveEdgeRequest event
  | media_volume_change_request detail => onVolumeChangeRequest event detail
  | media_enter_fullscreen_request detail =>
      not_awaited (onEnterFullscreenRequest event detail)
  | media_exit_fullscreen_request detail =>
      not_awaited (onExitFullscreenRequest event detail)
  | media_resume_user_idle_request => onResumeIdlingRequest event
  | media_pause_user_idle_request => onPauseIdlingRequest event
  | media_show_poster_request => onShowPosterRequest event
  | media_hide_poster_request => onHidePosterRequest event
  | media_loop_request => onLoopRequest event
  end.

Definition logRequest (event : RequestEvent) : M unit :=
  dev ← gets DEV;
  has ← gets logger;
  when (dev && has) (emit (log_request (event_type (request event)))).

(** The listener the manager registers for every request event type:
    [event.stopPropagation(); if (__DEV__) logRequest(event);
     if (peek($provider)) handler(event)]. *)
Definition listener (event : RequestEvent) : M unit :=
  emit stopPropagation;;
  dev ← gets DEV;
  when dev (logRequest event);;
  p ← gets provider;
  if bool_decide (is_Some p) then eventHandlers event else mret tt.

(** *** Actions

    The ways into the manager: a request event on the player, or one of the
    methods of [MediaRequestManager]. *)
Inductive Action : Type :=
| dispatch_request (event : RequestEvent)
| _play
| _pause
| _seekToLiveEdge
| _enterFullscreen (target : option FullscreenTarget)
| _exitFullscreen (target : option FullscreenTarget).

Definition run (a : Action) : M unit :=
  match a with
  | dispatch_request event => listener event
  | _play => play
  | _pause => pause
  | _seekToLiveEdge => seekToLiveEdge
  | _enterFullscreen target => enterFullscreen target
  | _exitFullscreen target => exitFullscreen target
  end.

(** The actions whose code uses the provider, in the handler itself or, for
    the loop request, in the callback the handler schedules. *)
Definition provider_dependent (a : Action) : bool :=
  match a with
  | dispatch_request event =>
      match request event with
      | media_mute_request | media_unmute_request
      | media_play_request | media_pause_request
      | media_seek_request _ | media_live_edge_request
      | media_volume_change_request _
      | media_enter_fullscreen_request _ | media_exit_fullscreen_request _
      | media_loop_request => true
      | _ => false
      end
  | _ => true
  end.

(** The world with another readiness: the player element there or not, and
    the can-play flag of its state. *)
Definition with_readiness (there ready : bool) (w : World) : World :=
  with_player there (with_media (store_canPlay ready) w).

(** A computation that does the same and leaves the same state whatever the
    readiness is. *)
Definition ignores_readiness {A : Type} (m : M A) : Prop :=
  ∀ there ready w,
    m (with_readiness there ready w)
    = ((m w).1, with_readiness there ready (m w).2).

(** The effects a run adds to the trace. *)
Definition new_effects (before after : World) : list Effect :=
  drop (length (trace before)) (trace after).

(** *** The store follows the provider *)

Definition store_muted_volume (b : bool) (v : num) (s : MediaStore) : MediaStore :=
  {| canLoad := canLoad s; canPlay := canPlay s; canSeek := canSeek s;
     paused := paused s; ended := ended s; muted := b; volume := v;
     seeking := seeking s; seekableStart := seekableStart s;
     seekableEnd := seekableEnd s; live := live s; liveEdge := liveEdge s;
     liveSyncPosition := liveSyncPosition s;
     userBehindLiveEdge := userBehindLiveEdge s;
     attemptingAutoplay := attemptingAutoplay s; canLoadPoster := canLoadPoster s |}.

(** Modelled from the spec: the state manager, which writes the provider's
    volume changes back into the store, is not among the sources; the spec
    has the store mirror the observable media properties.  After a volume
    change of the provider, [muted] and [volume] of the store are the
    provider's. *)
Definition volume_change_settles (w : World) : World :=
  match provider w with
  | Some p => with_media (store_muted_volume (p_muted p) (p_volume p)) w
  | None => w
  end.

(** *** Vocabulary of the specification *)

(** A run that never reaches into the provider. *)
Definition provider_untouched (before after : World) : Prop :=
  provider after = provider before ∧
  Forall (λ e, touches_provider e = false) (new_effects before after).

(** The global guard as the specification words it: before can-play, a
    provider-dependent action throws and never invokes the provider. *)
Definition guarded_before_can_play (a : Action) (w : World) : Prop :=
  provider_dependent a = true →
  player_canPlay w = false →
  (∃ e, (run a w).1 = Throw e) ∧ provider_untouched w (run a w).2.

(** The seek commit as the specification words it, for a world where
    seeking is allowed and the bounds are finite: a time past the end goes
    to [seekableEnd - 0.1], a time before the start to
    [seekableStart + 0.1]. *)
Definition seek_clamps_to_nearest_bound (event : RequestEvent) (t : num)
    (w : World) : Prop :=
  let m := media w in
  let current := p_currentTime <$> provider (onSeekRequest event t w).2 in
  canSeek m = true →
  isFinite (seekableStart m) = true →
  isFinite (seekableEnd m) = true →
  (gtb t (seekableEnd m) = true →
   ∃ c, current = Some c ∧ strict_eq c (sub (seekableEnd m) (Fin 0.1)) = true) ∧
  (ltb t (seekableStart m) = true →
   ∃ c, current = Some c ∧ strict_eq c (add (seekableStart m) (Fin 0.1)) = true).

(** The failure of a play request as the specification words it: the
    play-fail event carries the coerced error and an autoplay flag. *)
Definition play_fail_carries_autoplay_flag (event : RequestEvent) (w : World)
  : Prop :=
  ∀ p e,
    paused (media w) = true →
    provider w = Some p →
    play_rejects p = Some e →
    ∃ flag : bool,
      handle (play_fail (coerceToError e) (Some flag))
      ∈ new_effects w (onPlayRequest event w).2.

(** A computation that, started with a provider attached, keeps one
    attached and never uses a [null] provider. *)
Definition safe {A : Type} (m : M A) : Prop :=
  ∀ w, is_Some (provider w) →
       is_Some (provider (m w).2) ∧
       ∃ xs, trace (m w).2 = trace w ++ xs ∧ null_provider_dereference ∉ xs.

(** *** Sample values *)

Definition sample_store : MediaStore :=
  {| canLoad := true; canPlay := true; canSeek := true;
     paused := true; ended := false; muted := false; volume := Fin 1;
     seeking := false; seekableStart := Fin 0; seekableEnd := Fin 60;
     live := false; liveEdge := false; liveSyncPosition := None;
     userBehindLiveEdge := false; attemptingAutoplay := false;
     canLoadPoster := None |}.

Definition sample_fullscreen : FullscreenAdapter :=
  {| fs_supported := true; fs_active := false;
     enter_rejects := None; exit_rejects := None |}.

Definition sample_orientation : ScreenOrientationAdapter :=
  {| o_supported := true; o_locked := false;
     lock_rejects := None; unlock_rejects := None |}.

Definition sample_provider : MediaProvider :=
  {| p_muted := false; p_volume := Fin 1; p_currentTime := Fin 0;
     play_rejects := None; pause_rejects := None; p_fullscreen := None |}.

Definition sample_world : World :=
  {| DEV := false; logger := false; player := true; media := sample_store;
     provider := Some sample_provider; fullscreen := sample_fullscreen;
     orientation := sample_orientation; fullscreenOrientation := None;
     queue := ∅; isSeeking := false; isLooping := false; isReplay := false;
     idle_paused := false; trace := [] |}.

Definition sample_event (r : Request) : RequestEvent :=
  {| request := r; isOriginTrusted := true |}.

(** A provider attached and paused, before can-play. *)
Definition sample_not_ready : World :=
  with_media
    (λ s,
       {| canLoad := canLoad s; canPlay := false; canSeek := canSeek s;
          paused := paused s; ended := ended s; muted := muted s;
          volume := volume s; seeking := seeking s;
          seekableStart := seekableStart s; seekableEnd := seekableEnd s;
          live := live s; liveEdge := liveEdge s;
          liveSyncPosition := liveSyncPosition s;
          userBehindLiveEdge := userBehindLiveEdge s;
          attemptingAutoplay := attemptingAutoplay s;
          canLoadPoster := canLoadPoster s |})
    sample_world.

(** A seekable window from 10 s to 10.1 s. *)
Definition sample_narrow_window : World :=
  with_media
    (λ s,
       {| canLoad := canLoad s; canPlay := canPlay s; canSeek := canSeek s;
          paused := paused s; ended := ended s; muted := muted s;
          volume := volume s; seeking := seeking s;
          seekableStart := Fin 10; seekableEnd := Fin 10.1;
          live := live s; liveEdge := liveEdge s;
          liveSyncPosition := liveSyncPosition s;
          userBehindLiveEdge := userBehindLiveEdge s;
          attemptingAutoplay := attemptingAutoplay s;
          canLoadPoster := canLoadPoster s |})
    sample_world.

(** A provider whose [play()] and [pause()] reject. *)
Definition sample_rejecting : World :=
  with_provider
    (λ _, Some {| p_muted := false; p_volume := Fin 1; p_currentTime := Fin 0;
                  play_rejects := Some (Reason "NotAllowedError");
                  pause_rejects := Some (Reason "AbortError");
                  p_fullscreen := None |})
    sample_world.

(** Muted state with volume zero, store and provider alike. *)
Definition sample_silent : World :=
  with_provider (fmap (provider_volume (Fin 0)))
    (with_media (store_muted_volume false (Fin 0)) sample_world).

(** An orientation preference set. *)
Definition sample_landscape : World :=
  {| DEV := false; logger := false; player := true; media := sample_store;
     provider := Some sample_provider; fullscreen := sample_fullscreen;
     orientation := sample_orientation; fullscreenOrientation := Some "landscape";
     queue := ∅; isSeeking := false; isLooping := false; isReplay := false;
     idle_paused := false; trace := [] |}.

(** No provider attached. *)
Definition sample_detached : World := with_provider (λ _, None) sample_world.

End RequestManager.

(* ===================================================================== *)
(** ** The video loader (providers/video/loader) *)
(* ===================================================================== *)

Module VideoProviderLoader.
Import SourceSelection.

(** What [canPlay] reads from utils/mime, utils/support and the build: the
    extension pattern, the set of video types, the HLS test, native HLS
    support and the [__SERVER__] flag. *)
Record Support : Type := {
  VIDEO_EXTENSIONS_test : string -> bool;
  VIDEO_TYPES_has : string -> bool;
  isHLSSrc : MediaSrc -> bool;
  canPlayHLSNatively : bool;
  SERVER : bool
}.

Definition canPlay (env : Support) (s : MediaSrc) : bool :=
  match src s with
  | SrcString url =>
      VIDEO_EXTENSIONS_test env url
      || VIDEO_TYPES_has env (type s)
      || (String.prefix "blob:" url && bool_decide (type s = "video/object"))
      || (isHLSSrc env s && (SERVER env || canPlayHLSNatively env))
  | SrcObject _ => bool_decide (type s = "video/object")
  end.

Definition mediaType (s : MediaSrc) : MediaType := video.

(** The loader object [useSourceSelection] registers as [VIDEO_LOADER]; the
    class has no [preconnect]. *)
Definition loader (env : Support) : MediaProviderLoader :=
  Build_MediaProviderLoader VIDEO_LOADER (canPlay env) mediaType false.

(** A runtime that knows no extension, no type and no HLS. *)
Definition sample_support : Support :=
  {| VIDEO_EXTENSIONS_test := fun _ => false;
     VIDEO_TYPES_has := fun _ => false;
     isHLSSrc := fun _ => false;
     canPlayHLSNatively := false;
     SERVER := false |}.

Definition sample_blob_entry : SrcEntry :=
  {| entry_src := SrcString "blob:https://example.org/1"; entry_type := None |}.

End VideoProviderLoader.

(* ===================================================================== *)
(** ** Source selection, continued *)
(* ===================================================================== *)

Module SourceSelectionRest.
Import SourceSelection.

(** A normalized source written back as a user entry, type given. *)
Definition typed_entry (s : MediaSrc) : SrcEntry :=
  {| entry_src := src s; entry_type := Some (type s) |}.

(** The events of the selection effect when no source is playable, for a
    current source and loader. *)
Definition cleared (currentSource : MediaSrc)
    (currentLoader : option MediaProviderLoader) : list Dispatch :=
  (if sourceDiffers noSelection.1 currentSource
   then [source_change noSelection.1; media_type_change unknown] else [])
  ++ match currentLoader with
     | Some _ => [provider_change_null; provider_loader_change None]
     | None => []
     end.

End SourceSelectionRest.

(* ===================================================================== *)
(** ** Provider setup and source loading (controller/source-selection.ts) *)
(* ===================================================================== *)

Module SourceLoading.
Import SourceSelection.

(** The attached provider as the last two effects of [useSourceSelection]
    use it: whether its optional [preconnect] is there. *)
Record Provider : Type := { provider_has_preconnect : bool }.

(** The calls the two effects make. *)
Inductive Call : Type :=
| provider_setup
| provider_preconnect
| provider_loadSource (source : MediaSrc) (preload : string)
| network_preconnect (origin : string)
| log_preconnect_failure (url : string).

(** What the effects read: the context, and the platform's URL parser
    ([new URL(s).origin], which throws on a string that is no URL:
    [None]). *)
Record Context : Type := {
  DEV : bool;
  logger : bool;
  provider : option Provider;
  canLoad : bool;
  source : MediaSrc;
  preload : string;
  URL_origin : string -> option string
}.

(** The third effect: [provider.setup] once loading is allowed, else the
    provider's [preconnect] when it has one. *)
Definition setupEffect (ctx : Context) : list Call :=
  match provider ctx with
  | None => []
  | Some p =>
      if canLoad ctx then [provider_setup]
      else if provider_has_preconnect p then [provider_preconnect] else []
  end.

(** The fourth effect: [provider?.loadSource(source, preload)] once loading
    is allowed, else a preconnect to the origin of a string source inside a
    [try] whose [catch] only logs. *)
Definition loadEffect (ctx : Context) : list Call :=
  if canLoad ctx then
    match provider ctx with
    | Some _ => [provider_loadSource (source ctx) (preload ctx)]
    | None => []
    end
  else
    match src (source ctx) with
    | SrcString url =>
        match URL_origin ctx url with
        | Some origin => [network_preconnect origin]
        | None => if DEV ctx && logger ctx then [log_preconnect_failure url] else []
        end
    | SrcObject _ => []
    end.

(** Is a call one that starts the provider on the media. *)
Definition starts_loading (c : Call) : bool :=
  match c with
  | provider_setup | provider_loadSource _ _ => true
  | _ => false
  end.

End SourceLoading.

(* ===================================================================== *)
(** ** Listener subscriptions and live sync (providers/hls/use-hls.ts) *)
(* ===================================================================== *)

Module UseHLSRest.
Import UseHLS.

(** One turn of the loop of [attachEventListeners]: the set [listening] and
    the calls [instance.on(toHLSEventType(type), dispatchHLSEvent)] made so
    far, by their first argument.  [toHLSEventType] is [kebabToCamelCase]
    of maverick.js. *)
Definition attachOne (toHLSEventType : string -> string)
    (st : gset string * list string) (type : string)
  : gset string * list string :=
  if bool_decide (type ∈ st.1) then st
  else ({[type]} ∪ st.1, st.2 ++ [toHLSEventType type]).

Definition attachEventListeners (toHLSEventType : string -> string)
    (listeners : list string) (listening : gset string)
  : gset string * list string :=
  fold_left (attachOne toHLSEventType) listeners (listening, []).

(** The distinct elements of a list, each at its first occurrence. *)
Fixpoint first_occurrences (l : list string) : list string :=
  match l with
  | [] => []
  | t :: l => t :: filter (λ u, u ≠ t) (first_occurrences l)
  end.

(** The frame callback of the live-sync loop:
    [$store.liveSyncPosition = instance.liveSyncPosition ?? Infinity]. *)
Definition liveSyncSample (instance_liveSyncPosition : option num) : num :=
  default PosInf instance_liveSyncPosition.

(** Is an effect a call of a method of the engine instance. *)
Definition engine_call (e : Effect) : bool :=
  match e with
  | startLoad _ | recoverMediaError _ | destroy _ => true
  | _ => false
  end.

(** The engine reporting errors one after the other. *)
Definition onErrors (errors : list (string * ErrorData)) (st : State) : State :=
  fold_left (fun s e => onError e.1 e.2 s) errors st.

(** An error of a category that cannot be recovered. *)
Definition sample_other_error : ErrorData :=
  {| error_type := "otherError"; fatal := true |}.

End UseHLSRest.

(* ===================================================================== *)
(** ** The media request manager, continued *)
(* ===================================================================== *)

Module RequestManagerRest.
Import RequestManager.

(** [fullscreen.supported || $provider()?.fullscreen?.supported || false]. *)
Definition supported (w : World) : bool :=
  fs_supported (fullscreen w)
  || match provider w with
     | Some p =>
         match p_fullscreen p with
         | Some a => fs_supported a
         | None => false
         end
     | None => false
     end.

(** The effect that keeps [$media.canFullscreen]: the value of the flag
    after a run, from its value before. *)
Definition canFullscreenEffect (w : World) (canFullscreen : bool) : bool :=
  if canLoad (media w) && bool_decide (canFullscreen = supported w)
  then canFullscreen
  else supported w.

Definition store_liveSyncPosition (v : option num) (s : MediaStore) : MediaStore :=
  {| canLoad := canLoad s; canPlay := canPlay s; canSeek := canSeek s;
     paused := paused s; ended := ended s; muted := muted s; volume := volume s;
     seeking := seeking s; seekableStart := seekableStart s;
     seekableEnd := seekableEnd s; live := live s; liveEdge := liveEdge s;
     liveSyncPosition := v; userBehindLiveEdge := userBehindLiveEdge s;
     attemptingAutoplay := attemptingAutoplay s; canLoadPoster := canLoadPoster s |}.

(** *** Vocabulary *)

(** A computation that, started with a provider attached, keeps one
    attached and does not throw. *)
Definition completes {A : Type} (m : M A) : Prop :=
  ∀ w, is_Some (provider w) →
       is_Some (provider (m w).2) ∧ ∃ a, (m w).1 = Ok a.

(** Was the seek of a request committed to the provider. *)
Definition committed (m : MediaStore) (detail : num) : bool :=
  isFinite (boundTime m detail) && canSeek m.

(** *** Sample values *)

(** A live stream, ready, behind the live edge, with no sync position. *)
Definition sample_live_store : MediaStore :=
  {| canLoad := true; canPlay := true; canSeek := true;
     paused := false; ended := false; muted := true; volume := Fin 0.5;
     seeking := false; seekableStart := Fin 0; seekableEnd := Fin 60;
     live := true; liveEdge := false; liveSyncPosition := None;
     userBehindLiveEdge := true; attemptingAutoplay := false;
     canLoadPoster := None |}.

Definition sample_live : World := with_media (λ _, sample_live_store) sample_world.

(** A live stream seekable from 0 to [stop], the user not behind the live
    edge. *)
Definition sample_live_window (stop : num) : World :=
  with_media
    (λ s,
       {| canLoad := canLoad s; canPlay := canPlay s; canSeek := canSeek s;
          paused := paused s; ended := ended s; muted := muted s;
          volume := volume s; seeking := seeking s;
          seekableStart := Fin 0; seekableEnd := stop;
          live := true; liveEdge := liveEdge s;
          liveSyncPosition := liveSyncPosition s;
          userBehindLiveEdge := false;
          attemptingAutoplay := attemptingAutoplay s;
          canLoadPoster := canLoadPoster s |})
    sample_world.

(** Paused at the end of the media. *)
Definition sample_ended : World :=
  with_media
    (λ s,
       {| canLoad := canLoad s; canPlay := canPlay s; canSeek := canSeek s;
          paused := true; ended := true; muted := muted s;
          volume := volume s; seeking := seeking s;
          seekableStart := seekableStart s; seekableEnd := seekableEnd s;
          live := live s; liveEdge := liveEdge s;
          liveSyncPosition := liveSyncPosition s;
          userBehindLiveEdge := userBehindLiveEdge s;
          attemptingAutoplay := attemptingAutoplay s;
          canLoadPoster := canLoadPoster s |})
    sample_world.

End RequestManagerRest.

(* ===================================================================== *)
(** ** Properties of source selection *)
(* ===================================================================== *)

Module SourceSelectionSpec.
Import SourceSelection.

Lemma prefix_iff_append (p s : string) :
  String.prefix p s = true ↔ ∃ rest, s = p +:+ rest.
Proof.
  revert s. induction p as [|c p IH]; intros s.
  - split; [intros _; by exists s | by destruct s].
  - destruct s as [|d s]; cbn.
    + split; [done | intros [rest H]; discriminate H].
    + destruct (Ascii.ascii_dec c d) as [->|Hcd]; cbn.
      * rewrite IH. split; intros [rest H]; exists rest.
        -- by rewrite H.
        -- by injection H.
      * split; [done | intros [rest H]; injection H; congruence].
Qed.

Lemma normalizeEntry_normalized (e : SrcEntry) : normalized_as e (normalizeEntry e).
Proof.
  split; [done |].
  destruct e as [v [t|]]; simpl; [done |].
  destruct v as [url|h]; simpl; [| done].
  destruct (String.prefix "blob:" url) eqn:Hp.
  - split; [done |]. intros Hn. exfalso. apply Hn. by apply prefix_iff_append.
  - split; [| done]. intros Hb. apply prefix_iff_append in Hb. congruence.
Qed.

Lemma unplayable_tail_kept (loaders : list MediaProviderLoader)
    (post : list MediaSrc) (acc : Selection) :
  (∀ s, s ∈ post → findLoader loaders s = None) →
  fold_left (selectStep loaders) post acc = acc.
Proof.
  revert acc. induction post as [|s post IH]; intros acc Hpost; simpl; [done |].
  unfold selectStep at 2. rewrite (Hpost s) by set_solver.
  apply IH. intros s' Hs'. apply Hpost. set_solver.
Qed.

Lemma selectSource_last (loaders : list MediaProviderLoader)
    (pre post : list MediaSrc) (B : MediaSrc) (l : MediaProviderLoader) :
  findLoader loaders B = Some l →
  (∀ s, s ∈ post → findLoader loaders s = None) →
  selectSource (pre ++ B :: post) loaders = (B, Some l).
Proof.
  intros HB Hpost. unfold selectSource.
  rewrite fold_left_app. simpl.
  unfold selectStep at 2. rewrite HB.
  by apply unplayable_tail_kept.
Qed.

Lemma findLoader_Some (loaders : list MediaProviderLoader) (s : MediaSrc) :
  (∃ l, l ∈ loaders ∧ canPlay l s = true) →
  ∃ l, findLoader loaders s = Some l ∧ l ∈ loaders ∧ canPlay l s = true.
Proof.
  intros [l [Hin Hcan]]. unfold findLoader.
  destruct (find (λ loader, canPlay loader s) loaders) as [l'|] eqn:Hfind.
  - exists l'. apply find_some in Hfind as [Hin' Hcan'].
    split; [done |]. split; [by apply list_elem_of_In | done].
  - apply list_elem_of_In in Hin.
    pose proof (find_none _ _ Hfind l Hin) as Hno. simpl in Hno. congruence.
Qed.

Lemma findLoader_None (loaders : list MediaProviderLoader) (s : MediaSrc) :
  (∀ l, l ∈ loaders → canPlay l s = false) → findLoader loaders s = None.
Proof.
  intros Hno. unfold findLoader.
  destruct (find (λ loader, canPlay loader s) loaders) as [l'|] eqn:Hfind; [| done].
  apply find_some in Hfind as [Hin' Hcan'].
  rewrite Hno in Hcan' by by apply list_elem_of_In. discriminate.
Qed.

Lemma selectionEffect_source_change (sources : list MediaSrc)
    (currentSource : MediaSrc) (currentLoader : option MediaProviderLoader)
    (loaders : list MediaProviderLoader) (X : MediaSrc) :
  source_change X ∈ selectionEffect sources currentSource currentLoader loaders ↔
  X = (selectSource sources loaders).1 ∧
  sourceDiffers (selectSource sources loaders).1 currentSource = true.
Proof.
  unfold selectionEffect.
  destruct (selectSource sources loaders) as [newSource newLoader]; simpl.
  rewrite list_elem_of_In, in_app_iff.
  destruct (sourceDiffers newSource currentSource);
    destruct (loaderDiffers newLoader currentLoader);
    try destruct newLoader as [l|]; try destruct (has_preconnect l);
    simpl; intuition congruence.
Qed.

(** Of two playable sources, the later one is selected. *)
Lemma later_playable_source_wins (loaders : list MediaProviderLoader)
    (A B : MediaSrc) :
  (∃ l, l ∈ loaders ∧ canPlay l B = true) →
  (selectSource [A; B] loaders).1 = B.
Proof.
  intros HB. destruct (findLoader_Some loaders B HB) as (l & Hfind & _).
  change [A; B] with ([A] ++ B :: []).
  rewrite (selectSource_last loaders [A] [] B l Hfind); [done |].
  intros s Hs. by apply elem_of_nil in Hs.
Qed.

(** The server branch runs the same loop: it ends on the same source and
    loader, and leaves the store alone when nothing is playable. *)
Lemma serverSelect_agrees (loaders : list MediaProviderLoader)
    (sources : list MediaSrc)
    (init : MediaSrc * MediaType * option MediaProviderLoader) :
  serverSelect sources loaders init =
  match selectSource sources loaders with
  | (s, Some l) => (s, mediaType l s, Some l)
  | (_, None) => init
  end.
Proof.
  unfold serverSelect, selectSource.
  assert (Hgen : ∀ acc_server acc,
             acc_server = match acc with
                          | (s, Some l) => (s, mediaType l s, Some l)
                          | (_, None) => init
                          end →
             fold_left
               (λ a s,
                  match findLoader loaders s with
                  | Some loader => (s, mediaType loader s, Some loader)
                  | None => a
                  end) sources acc_server
             = match fold_left (selectStep loaders) sources acc with
               | (s, Some l) => (s, mediaType l s, Some l)
               | (_, None) => init
               end).
  { induction sources as [|s sources IH]; intros acc_server acc' Hacc; simpl.
    - done.
    - apply IH. unfold selectStep. by destruct (findLoader loaders s). }
  by apply (Hgen init noSelection).
Qed.

(** C5.  Normalization keeps every source and every supplied type; an entry
    without a type gets ["video/object"] when its source is a handle or a
    string starting with ["blob:"], and ["?"] for any other string.  This
    holds for the three shapes of the [src] prop. *)
Theorem normalizeSrc_default_type :
  (∀ entries, Forall2 normalized_as entries (normalizeSrc (PropArray entries))) ∧
  (∀ entry, ∃ s, normalizeSrc (PropEntry entry) = [s] ∧ normalized_as entry s) ∧
  (∀ v, ∃ s, normalizeSrc (PropBare v) = [s] ∧
             normalized_as {| entry_src := v; entry_type := None |} s).
Proof.
  split; [| split].
  - intros entries. unfold normalizeSrc.
    induction entries as [|e entries IH]; simpl; constructor;
      [apply normalizeEntry_normalized | apply IH].
  - intros entry. eexists. split; [reflexivity | apply normalizeEntry_normalized].
  - intros v. eexists. split; [reflexivity | apply normalizeEntry_normalized].
Qed.

(** What the effect dispatches once the loop has ended on a source and a
    loader. *)
Lemma selectionEffect_committed (sources : list MediaSrc)
    (loaders : list MediaProviderLoader) (B : MediaSrc) (l : MediaProviderLoader)
    (currentSource : MediaSrc) (currentLoader : option MediaProviderLoader) :
  selectSource sources loaders = (B, Some l) →
  selectionEffect sources currentSource currentLoader loaders
  = (if bool_decide (src B = src currentSource ∧ type B = type currentSource)
     then []
     else [source_change B; media_type_change (mediaType l B)])
    ++ (if bool_decide (name <$> currentLoader = Some (name l))
        then []
        else provider_change_null
               :: (if has_preconnect l then [loader_preconnect (name l)] else [])
               ++ [provider_loader_change (Some (name l))]).
Proof.
  intros Hsel. unfold selectionEffect, sourceDiffers, loaderDiffers.
  rewrite Hsel. simpl. f_equal.
  - repeat case_bool_decide; simpl; try done; exfalso; tauto.
  - repeat case_bool_decide; simpl; try done; exfalso; congruence.
Qed.

(** C1.  Let [B] be a source some loader can play, followed only by sources
    no loader can play.  The selection loop ends on [B], with the first
    loader [l] of the list that can play it, whatever playable sources come
    before [B], and the effect commits that pair: it dispatches a
    source-change for [B], followed by the media type [l] gives it, unless
    [B] has the [src] and the [type] of the current source, and no
    source-change for any other source; it dispatches provider-change
    [null], calls the [preconnect] of [l] if it has one and dispatches a
    provider-loader-change for [l], unless [l] is the current loader, and
    no provider-loader-change for any other loader; it dispatches nothing
    else. *)
Theorem selector_commits_last_match (loaders : list MediaProviderLoader)
    (pre post : list MediaSrc) (B : MediaSrc) :
  (∃ l, l ∈ loaders ∧ canPlay l B = true) →
  (∀ s l, s ∈ post → l ∈ loaders → canPlay l s = false) →
  ∃ l, selectSource (pre ++ B :: post) loaders = (B, Some l) ∧
       findLoader loaders B = Some l ∧ l ∈ loaders ∧ canPlay l B = true ∧
       ∀ currentSource currentLoader,
         let dispatched :=
           selectionEffect (pre ++ B :: post) currentSource currentLoader loaders in
         dispatched
         = (if bool_decide (src B = src currentSource ∧ type B = type currentSource)
            then []
            else [source_change B; media_type_change (mediaType l B)])
           ++ (if bool_decide (name <$> currentLoader = Some (name l))
               then []
               else provider_change_null
                      :: (if has_preconnect l then [loader_preconnect (name l)]
                          else [])
                      ++ [provider_loader_change (Some (name l))]) ∧
         (∀ X, source_change X ∈ dispatched → X = B) ∧
         (src B ≠ src currentSource ∨ type B ≠ type currentSource →
          source_change B ∈ dispatched) ∧
         (∀ d, provider_loader_change d ∈ dispatched → d = Some (name l)) ∧
         (name <$> currentLoader ≠ Some (name l) →
          provider_change_null ∈ dispatched ∧
          provider_loader_change (Some (name l)) ∈ dispatched).
Proof.
  intros HB Hpost.
  destruct (findLoader_Some loaders B HB) as [l [Hfind [Hin Hcan]]].
  assert (Hsel : selectSource (pre ++ B :: post) loaders = (B, Some l)).
  { apply selectSource_last; [done |].
    intros s Hs. apply findLoader_None. intros l' Hl'. by apply (Hpost s l'). }
  exists l. do 4 (split; [done |]).
  intros currentSource currentLoader dispatched. subst dispatched.
  rewrite (selectionEffect_committed _ _ B l _ _ Hsel).
  split; [done |].
  repeat case_bool_decide; destruct (has_preconnect l); simpl;
    repeat split; intros; rewrite ?list_elem_of_In in *; simpl in *;
    intuition congruence.
Qed.

Lemma selector_commits_last_match_witness :
  selectSource ([sample_A] ++ sample_B :: []) sample_loaders
  = (sample_B, Some (plays_type HLS_LOADER "application/x-mpegurl" video)) ∧
  selectionEffect ([sample_A] ++ sample_B :: [])
    {| src := SrcString "a.m3u8"; type := "application/x-mpegurl" |}
    (Some (plays_type VIDEO_LOADER "video/mp4" video)) sample_loaders
  = [source_change sample_B; media_type_change video;
     provider_change_null; provider_loader_change (Some HLS_LOADER)].
Proof.
  destruct (selector_commits_last_match sample_loaders [sample_A] [] sample_B)
    as (l & Hsel & Hfind & _ & _ & Hdispatched).
  - exists (plays_type HLS_LOADER "application/x-mpegurl" video).
    split; [apply list_elem_of_here | reflexivity].
  - intros s l Hs. by apply elem_of_nil in Hs.
  - injection Hfind as <-. split; [exact Hsel |].
    exact (proj1 (Hdispatched
                    {| src := SrcString "a.m3u8"; type := "application/x-mpegurl" |}
                    (Some (plays_type VIDEO_LOADER "video/mp4" video)))).
Defined.

End SourceSelectionSpec.

(* ===================================================================== *)
(** ** Properties of the HLS engine callbacks *)
(* ===================================================================== *)

Module UseHLSSpec.
Import UseHLS.

Lemma trace_call_instance (f : nat → Effect) (st : State) (i : HlsInstance) :
  instance st = Some i →
  trace (call_instance f st) = trace st ++ [f (instance_id i)] ∧
  instance (call_instance f st) = Some i.
Proof. intros Hi. unfold call_instance. by rewrite Hi. Qed.

Lemma diagnostics_step (eventType : string) (st : State) :
  let st1 := if DEV st && logger st then emit (log_error_group eventType) st else st in
  trace st1 = trace st ++ diagnostics eventType st ∧
  instance st1 = instance st ∧ store_canPlay st1 = store_canPlay st.
Proof.
  unfold diagnostics. destruct (DEV st && logger st); simpl; [done |].
  by rewrite app_nil_r.
Qed.

(** C4.  With an engine instance published, a fatal network error calls
    [startLoad] on it and keeps it; a fatal media error calls
    [recoverMediaError] and keeps it; any other fatal error calls [destroy]
    and sets the published instance to [null]; an error that is not fatal
    calls nothing and leaves the instance. *)
Theorem onError_recovery_policy (eventType : string) (data : ErrorData)
    (st : State) (i : HlsInstance) :
  instance st = Some i →
  let st' := onError eventType data st in
  let before := trace st ++ diagnostics eventType st in
  (fatal data = true →
     (error_type data = "networkError" →
        trace st' = before ++ [startLoad (instance_id i)] ∧ instance st' = Some i) ∧
     (error_type data = "mediaError" →
        trace st' = before ++ [recoverMediaError (instance_id i)] ∧
        instance st' = Some i) ∧
     (error_type data ≠ "networkError" → error_type data ≠ "mediaError" →
        trace st' = before ++ [destroy (instance_id i)] ∧ instance st' = None)) ∧
  (fatal data = false → trace st' = before ∧ instance st' = Some i).
Proof.
  intros Hi st' before. subst st' before. unfold onError.
  destruct (diagnostics_step eventType st) as (Ht & Hinst & _).
  cbv zeta in Ht, Hinst. rewrite Hi in Hinst.
  set (st1 := if DEV st && logger st
              then emit (log_error_group eventType) st else st) in *.
  rewrite <- Ht. clearbody st1.
  split.
  - intros Hfatal. rewrite Hfatal. split; [| split].
    + intros Hnet. rewrite Hnet. cbn [String.eqb Ascii.eqb Bool.eqb].
      by apply trace_call_instance.
    + intros Hmedia. rewrite Hmedia. cbn [String.eqb Ascii.eqb Bool.eqb].
      by apply trace_call_instance.
    + intros Hnet Hmedia.
      apply String.eqb_neq in Hnet, Hmedia. rewrite Hnet, Hmedia.
      destruct (trace_call_instance destroy st1 i Hinst) as [Hd _].
      by rewrite <- Hd.
  - intros Hfatal. by rewrite Hfatal.
Qed.

Lemma onError_recovery_policy_witness :
  trace (onError "hlsError" sample_network_error sample_state) = [startLoad 1] ∧
  instance (onError "hlsError" sample_network_error sample_state)
  = Some {| instance_id := 1; media := Some 7 |}.
Proof.
  destruct (onError_recovery_policy "hlsError" sample_network_error sample_state
              {| instance_id := 1; media := Some 7 |} eq_refl) as [Hfatal _].
  destruct (Hfatal eq_refl) as [Hnetwork _].
  exact (Hnetwork eq_refl).
Defined.

Lemma streamTypeOf_dvr (details : LevelDetails) :
  streamTypeOf details = "live:dvr" ↔
  live details = true ∧ details_type details = Some "EVENT" ∧
  isFinite (totalduration details) = true.
Proof.
  unfold streamTypeOf.
  destruct (live details), (isFinite (totalduration details));
    try case_bool_decide; simpl; intuition congruence.
Qed.

Lemma streamTypeOf_live (details : LevelDetails) :
  streamTypeOf details = "live" ↔
  live details = true ∧
  ¬ (details_type details = Some "EVENT" ∧ isFinite (totalduration details) = true).
Proof.
  unfold streamTypeOf.
  destruct (live details), (isFinite (totalduration details));
    try case_bool_decide; simpl; intuition congruence.
Qed.

Lemma streamTypeOf_on_demand (details : LevelDetails) :
  streamTypeOf details = "on-demand" ↔ live details = false.
Proof.
  unfold streamTypeOf.
  destruct (live details), (isFinite (totalduration details));
    try case_bool_decide; simpl; intuition congruence.
Qed.

(** C8, as the code has it.  Before can-play, a level-loaded event
    dispatches first a stream-type-change, then a duration-change with the
    total duration; the stream type is ["live:dvr"] exactly when the stream
    is live, the playlist type is ['EVENT'] and the total duration is
    finite, ["live"] for any other live stream, ["on-demand"] exactly when
    the stream is not live.  After can-play the event changes nothing. *)
Theorem onLevelLoaded_stream_type (details : LevelDetails) (st : State) :
  (if store_canPlay st
   then onLevelLoaded details st = (Returns, st)
   else ∃ rest,
       trace (onLevelLoaded details st).2
       = trace st ++ stream_type_change (streamTypeOf details)
                  :: duration_change (totalduration details) :: rest) ∧
  (streamTypeOf details = "live:dvr" ↔
   live details = true ∧ details_type details = Some "EVENT" ∧
   isFinite (totalduration details) = true) ∧
  (streamTypeOf details = "live" ↔
   live details = true ∧
   ¬ (details_type details = Some "EVENT" ∧
      isFinite (totalduration details) = true)) ∧
  (streamTypeOf details = "on-demand" ↔ live details = false).
Proof.
  split; [| split; [apply streamTypeOf_dvr |
            split; [apply streamTypeOf_live | apply streamTypeOf_on_demand]]].
  unfold onLevelLoaded. destruct (store_canPlay st); [done |].
  simpl. destruct (instance st) as [[id [el|]]|]; simpl.
  - exists [media_dispatch_canplay el]. by rewrite <- !app_assoc.
  - exists []. by rewrite <- !app_assoc.
  - exists []. by rewrite <- !app_assoc.
Qed.

(** C8, as worded: a live playlist without a playlist type and with a
    finite duration is classified ["live"], not ["live:dvr"]. *)
Lemma live_finite_without_event_type_is_not_dvr :
  ¬ dvr_iff_live_and_finite sample_live_details sample_state.
Proof.
  unfold dvr_iff_live_and_finite. intros Hclaim.
  destruct (Hclaim eq_refl) as [_ Hback].
  specialize (Hback (conj eq_refl eq_refl)).
  vm_compute in Hback.
  repeat (apply elem_of_cons in Hback as [Hback | Hback]; [discriminate Hback |]).
  by apply elem_of_nil in Hback.
Qed.

(** What that event gives: the stream type ["live"]. *)
Example live_finite_without_event_type :
  trace (onLevelLoaded sample_live_details sample_state).2
  = [stream_type_change "live"; duration_change (Fin 30); media_dispatch_canplay 7].
Proof. reflexivity. Qed.

End UseHLSSpec.


(* ===================================================================== *)
(** ** Properties of the media request manager *)
(* ===================================================================== *)

Module RequestManagerSpec.
Import RequestManager.

(** Unfolds the control-flow combinators. *)
Ltac step :=
  unfold mbind, M_bind, mret, M_ret, gets, modify, throw, try_catch, when,
    emit, settle, handler_handle, _enqueue, _delete in *.

Lemma new_effects_same_trace (w w' : World) :
  trace w' = trace w → new_effects w w' = [].
Proof. intros H. unfold new_effects. rewrite H. apply drop_all. Qed.

Lemma new_effects_app (w w' : World) (xs : list Effect) :
  trace w' = trace w ++ xs → new_effects w w' = xs.
Proof. intros H. unfold new_effects. rewrite H. apply drop_app_length. Qed.

Lemma untouched_same (w w' : World) :
  provider w' = provider w → trace w' = trace w → provider_untouched w w'.
Proof.
  intros Hp Ht. split; [done |]. by rewrite new_effects_same_trace.
Qed.

Lemma untouched_app (w w' : World) (xs : list Effect) :
  provider w' = provider w →
  trace w' = trace w ++ xs →
  Forall (λ e, touches_provider e = false) xs →
  provider_untouched w w'.
Proof.
  intros Hp Ht Hxs. split; [done |]. by rewrite (new_effects_app w w' xs).
Qed.

(** Closes a goal [new_effects w w' = xs] when [w'] is [w] with its trace
    extended. *)
Ltac solve_effects :=
  first [ apply new_effects_same_trace; reflexivity
        | apply new_effects_app; cbn; rewrite <- ?app_assoc; reflexivity ].

Lemma not_ready_guard (w : World) :
  provider w = None ∨ player_canPlay w = false →
  bool_decide (is_Some (provider w)) && player_canPlay w = false.
Proof.
  intros [Hnone | Hcan].
  - by rewrite Hnone.
  - rewrite Hcan. apply andb_false_r.
Qed.

Lemma play_not_ready (w : World) :
  provider w = None ∨ player_canPlay w = false →
  paused (media w) = true →
  play w =
  (Throw (Error (notReadyMessage (DEV w))),
   with_trace
     (λ t, t ++ [handle (play_fail (coerceToError (Error (notReadyMessage (DEV w))))
                           (Some (attemptingAutoplay (media w))))])
     w).
Proof.
  intros Hnot Hpaused. apply not_ready_guard in Hnot.
  unfold play, throwIfNotReadyForPlayback. step.
  rewrite Hpaused. cbn. by rewrite Hnot.
Qed.

Lemma pause_not_ready (w : World) :
  provider w = None ∨ player_canPlay w = false →
  paused (media w) = false →
  pause w = (Throw (Error (notReadyMessage (DEV w))), w).
Proof.
  intros Hnot Hpaused. apply not_ready_guard in Hnot.
  unfold pause, throwIfNotReadyForPlayback. step.
  rewrite Hpaused. cbn. by rewrite Hnot.
Qed.

Lemma seekToLiveEdge_not_ready (w : World) :
  provider w = None ∨ player_canPlay w = false →
  live (media w) = true → liveEdge (media w) = false → canSeek (media w) = true →
  seekToLiveEdge w =
  (Throw (Error (notReadyMessage (DEV w))),
   with_media (store_userBehindLiveEdge false) w).
Proof.
  intros Hnot Hlive Hedge Hseek. apply not_ready_guard in Hnot.
  unfold seekToLiveEdge, throwIfNotReadyForPlayback. step.
  cbn. rewrite Hlive, Hedge, Hseek. cbn.
  unfold player_canPlay in *. cbn. by rewrite Hnot.
Qed.

Lemma guarded_actions_leave_provider (w : World) (a : Action) :
  provider w = None ∨ player_canPlay w = false →
  a ∈ [_play; _pause; _seekToLiveEdge] →
  provider_untouched w (run a w).2.
Proof.
  intros Hnot Ha.
  rewrite !elem_of_cons in Ha. destruct Ha as [-> | [-> | [-> | Ha]]];
    [| | | by apply elem_of_nil in Ha]; simpl.
  - destruct (paused (media w)) eqn:Hpaused.
    + rewrite play_not_ready by done. simpl.
      eapply untouched_app; [done | done |]. by repeat constructor.
    + unfold play. step. rewrite Hpaused. by apply untouched_same.
  - destruct (paused (media w)) eqn:Hpaused.
    + unfold pause. step. rewrite Hpaused. by apply untouched_same.
    + rewrite pause_not_ready by done. by apply untouched_same.
  - destruct (negb (live (media w)) || liveEdge (media w) || negb (canSeek (media w)))
      eqn:Hguard.
    + unfold seekToLiveEdge. step. cbn. rewrite Hguard. by apply untouched_same.
    + apply orb_false_elim in Hguard as [Hguard Hseek].
      apply orb_false_elim in Hguard as [Hlive Hedge].
      apply negb_false_iff in Hlive, Hseek.
      rewrite seekToLiveEdge_not_ready by done. by apply untouched_same.
Qed.

(** The guards of the three actions that come before the readiness check. *)
Lemma play_while_playing (w : World) :
  paused (media w) = false → play w = (Ok (), w).
Proof. intros Hpaused. unfold play. step. by rewrite Hpaused. Qed.

Lemma pause_while_paused (w : World) :
  paused (media w) = true → pause w = (Ok (), w).
Proof. intros Hpaused. unfold pause. step. by rewrite Hpaused. Qed.

Lemma seekToLiveEdge_nowhere_to_go (w : World) :
  negb (live (media w)) || liveEdge (media w) || negb (canSeek (media w)) = true →
  seekToLiveEdge w = (Ok (), with_media (store_userBehindLiveEdge false) w).
Proof. intros Hguard. unfold seekToLiveEdge. step. cbn. by rewrite Hguard. Qed.

(** The live-edge request reaches the check through [seekToLiveEdge()] and
    catches its error. *)
Lemma onSeekToLiveEdgeRequest_not_ready (event : RequestEvent) (w : World) :
  provider w = None ∨ player_canPlay w = false →
  negb (live (media w)) || liveEdge (media w) || negb (canSeek (media w)) = false →
  let r := onSeekToLiveEdgeRequest event w in
  r.1 = Ok () ∧ provider r.2 = provider w ∧
  new_effects w r.2
  = if DEV w && logger w
    then [log_error "seek to live edge fail" (Error (notReadyMessage (DEV w)))]
    else [].
Proof.
  intros Hnot Hguard. unfold onSeekToLiveEdgeRequest, dev_log_error. step.
  rewrite Hguard. cbn.
  apply orb_false_elim in Hguard as [Hguard Hseek].
  apply orb_false_elim in Hguard as [Hlive Hedge].
  apply negb_false_iff in Hlive, Hseek.
  rewrite seekToLiveEdge_not_ready by done. cbn.
  destruct (DEV w && logger w); cbn; (split; [done |]); (split; [done |]);
    solve_effects.
Qed.

(** The callback of a loop request reaches it through [play()] and catches
    its error. *)
Lemma loopCallback_not_ready (w : World) :
  provider w = None ∨ player_canPlay w = false →
  paused (media w) = true →
  let r := loopCallback w in
  r.1 = Ok () ∧ provider r.2 = provider w ∧
  new_effects w r.2
  = [handle (play_fail (coerceToError (Error (notReadyMessage (DEV w))))
               (Some (attemptingAutoplay (media w))))] ∧
  isLooping r.2 = false ∧ isReplay r.2 = false.
Proof.
  intros Hnot Hpaused. unfold loopCallback. step. cbn.
  rewrite play_not_ready by done. cbn.
  repeat split; solve_effects.
Qed.

Lemma ignores_ret {A : Type} (a : A) : ignores_readiness (mret a).
Proof. done. Qed.

Lemma ignores_throw {A : Type} (e : Thrown) : ignores_readiness (@throw A e).
Proof. done. Qed.

Lemma ignores_bind {A B : Type} (m : M A) (k : A → M B) :
  ignores_readiness m → (∀ a, ignores_readiness (k a)) →
  ignores_readiness (m ≫= k).
Proof.
  intros Hm Hk there ready w. unfold mbind, M_bind. rewrite Hm.
  destruct (m w) as [[a | e] w1]; simpl; [apply Hk | done].
Qed.

Lemma ignores_try_catch {A : Type} (body : M A) (handler : Thrown → M A) :
  ignores_readiness body → (∀ e, ignores_readiness (handler e)) →
  ignores_readiness (try_catch body handler).
Proof.
  intros Hm Hk there ready w. unfold try_catch. rewrite Hm.
  destruct (body w) as [[a | e] w1]; simpl; [done | apply Hk].
Qed.

(** A read of anything but the readiness. *)
Lemma ignores_gets {A B : Type} (f : World → A) (k : A → M B) :
  (∀ there ready w, f (with_readiness there ready w) = f w) →
  (∀ a, ignores_readiness (k a)) →
  ignores_readiness (gets f ≫= k).
Proof.
  intros Hf Hk there ready w. unfold mbind, M_bind, gets. rewrite Hf. apply Hk.
Qed.

(** A read of the store by a continuation that does not look at its
    can-play flag. *)
Lemma ignores_gets_media {B : Type} (k : MediaStore → M B) :
  (∀ ready m, k (store_canPlay ready m) = k m) →
  (∀ m, ignores_readiness (k m)) →
  ignores_readiness (gets media ≫= k).
Proof.
  intros Hsame Hk there ready w. unfold mbind, M_bind, gets. simpl.
  rewrite Hsame. apply Hk.
Qed.

Lemma ignores_modify (f : World → World) :
  (∀ there ready w, f (with_readiness there ready w) = with_readiness there ready (f w)) →
  ignores_readiness (modify f).
Proof. intros Hf there ready w. unfold modify. simpl. by rewrite Hf. Qed.

Lemma ignores_when (b : bool) (m : M unit) :
  ignores_readiness m → ignores_readiness (when b m).
Proof. intros Hm. destruct b; [done | apply ignores_ret]. Qed.

Lemma ignores_settle (rejects : option Thrown) : ignores_readiness (settle rejects).
Proof. by destruct rejects. Qed.

(** Proves [ignores_readiness] by following the code. *)
Ltac ignores_step :=
  lazymatch goal with
  | |- ignores_readiness (mbind _ (gets media)) =>
      apply ignores_gets_media; [done | intros ?]
  | |- ignores_readiness (mbind _ (gets _)) => apply ignores_gets; [done | intros ?]
  | |- ignores_readiness (mbind _ _) => apply ignores_bind; [| intros ?]
  | |- ignores_readiness (mret _) => apply ignores_ret
  | |- ignores_readiness (throw _) => apply ignores_throw
  | |- ignores_readiness (when _ _) => apply ignores_when
  | |- ignores_readiness (settle _) => apply ignores_settle
  | |- ignores_readiness (try_catch _ _) => apply ignores_try_catch; [| intros ?]
  | |- ignores_readiness (modify _) => by apply ignores_modify
  | |- ignores_readiness (if ?b then _ else _) => destruct b
  | |- ignores_readiness (match ?x with _ => _ end) => destruct x
  end.

Ltac ignores_auto := repeat (cbv zeta; ignores_step).

Lemma fullscreen_ignores_readiness (target : option FullscreenTarget) :
  ignores_readiness (enterFullscreen target) ∧
  ignores_readiness (exitFullscreen target).
Proof.
  unfold enterFullscreen, exitFullscreen, throwIfFullscreenNotSupported,
    await_orientation_lock, await_orientation_unlock, emit.
  split; ignores_auto.
Qed.

(** No other handler reads the readiness: the player element and the
    can-play flag of its state. *)
Lemma eventHandlers_ignore_readiness (event : RequestEvent) :
  request event ≠ media_live_edge_request →
  ignores_readiness (eventHandlers event).
Proof.
  intros Hother. unfold eventHandlers.
  destruct (request event); try done;
    unfold onStartLoading, onMuteRequest, onUnmuteRequest, onPlayRequest,
      onPauseRequest, onSeekingRequest, onSeekRequest, onVolumeChangeRequest,
      onEnterFullscreenRequest, onExitFullscreenRequest,
      onResumeIdlingRequest, onPauseIdlingRequest, onShowPosterRequest,
      onHidePosterRequest, onLoopRequest, not_awaited,
      _enqueue, _delete, handler_handle, dev_log_error,
      set_muted, set_volume, set_currentTime, call_play, call_pause, nonnull, emit.
  all: ignores_auto.
  all: apply fullscreen_ignores_readiness.
Qed.

(** C2, as the code has it.  With no provider attached or before can-play,
    [play()] called while paused, [pause()] called while playing and
    [seekToLiveEdge()] called on a seekable live stream behind the edge
    throw the not-ready error; [play()] first hands a play-fail event with
    the error and the autoplay flag to the handler.  None of the three
    reaches into the provider, whatever the store says.  When its own guard
    applies, each of the three returns normally instead: [play()] while
    playing and [pause()] while paused change nothing, [seekToLiveEdge()]
    with nowhere to go only clears the behind-live-edge flag.  Two ways
    from a request end in the check: the live-edge request, through
    [seekToLiveEdge()], and the callback of the loop request, through
    [play()]; both catch the error, return normally and leave the provider
    alone.  Every other request handler, [enterFullscreen] and
    [exitFullscreen] do the same and leave the same state whatever the
    readiness is: none of them is guarded. *)
Theorem readiness_guard (w : World) :
  provider w = None ∨ player_canPlay w = false →
  let err := Error (notReadyMessage (DEV w)) in
  let m := media w in
  let nowhere_to_go := negb (live m) || liveEdge m || negb (canSeek m) in
  (paused m = true →
   play w =
   (Throw err,
    with_trace
      (λ t, t ++ [handle (play_fail (coerceToError err)
                            (Some (attemptingAutoplay m)))])
      w)) ∧
  (paused m = false → pause w = (Throw err, w)) ∧
  (live m = true → liveEdge m = false → canSeek m = true →
   seekToLiveEdge w = (Throw err, with_media (store_userBehindLiveEdge false) w)) ∧
  (∀ a, a ∈ [_play; _pause; _seekToLiveEdge] → provider_untouched w (run a w).2) ∧
  (paused m = false → play w = (Ok (), w)) ∧
  (paused m = true → pause w = (Ok (), w)) ∧
  (nowhere_to_go = true →
   seekToLiveEdge w = (Ok (), with_media (store_userBehindLiveEdge false) w)) ∧
  (∀ event, nowhere_to_go = false →
     let r := onSeekToLiveEdgeRequest event w in
     r.1 = Ok () ∧ provider r.2 = provider w ∧
     new_effects w r.2
     = if DEV w && logger w then [log_error "seek to live edge fail" err] else []) ∧
  (paused m = true →
   let r := loopCallback w in
   r.1 = Ok () ∧ provider r.2 = provider w ∧
   new_effects w r.2
   = [handle (play_fail (coerceToError err) (Some (attemptingAutoplay m)))] ∧
   isLooping r.2 = false ∧ isReplay r.2 = false) ∧
  (∀ event, request event ≠ media_live_edge_request →
            ignores_readiness (eventHandlers event)) ∧
  (∀ target, ignores_readiness (enterFullscreen target) ∧
             ignores_readiness (exitFullscreen target)).
Proof.
  intros Hnot err m nowhere_to_go. subst err m nowhere_to_go.
  split; [by apply play_not_ready |].
  split; [by apply pause_not_ready |].
  split; [by apply seekToLiveEdge_not_ready |].
  split; [intros a; by apply guarded_actions_leave_provider |].
  split; [apply play_while_playing |].
  split; [apply pause_while_paused |].
  split; [apply seekToLiveEdge_nowhere_to_go |].
  split; [intros event; by apply onSeekToLiveEdgeRequest_not_ready |].
  split; [by apply loopCallback_not_ready |].
  split; [apply eventHandlers_ignore_readiness |].
  apply fullscreen_ignores_readiness.
Qed.

Lemma readiness_guard_witness :
  play sample_not_ready =
  (Throw (Error "[vidstack] media not ready"),
   with_trace
     (λ t, t ++ [handle (play_fail (coerceToError (Error "[vidstack] media not ready"))
                           (Some false))])
     sample_not_ready) ∧
  provider_untouched sample_not_ready (run _play sample_not_ready).2 ∧
  pause sample_not_ready = (Ok (), sample_not_ready).
Proof.
  destruct (readiness_guard sample_not_ready (or_intror eq_refl))
    as (Hplay & _ & _ & Huntouched & _ & Hpause & _).
  split; [exact (Hplay eq_refl) |]. split.
  - apply Huntouched. apply list_elem_of_here.
  - exact (Hpause eq_refl).
Defined.

(** C2, as worded: a play request received before can-play, with a provider
    attached, completes normally and calls the provider's [play()]. *)
Lemma play_request_before_can_play_reaches_provider :
  ¬ guarded_before_can_play
      (dispatch_request (sample_event media_play_request)) sample_not_ready.
Proof.
  unfold guarded_before_can_play. intros Hclaim.
  destruct (Hclaim eq_refl eq_refl) as [[e He] _].
  vm_compute in He. discriminate He.
Qed.

(** What that run does: the request is queued and [play()] is called. *)
Example play_request_before_can_play :
  let r := listener (sample_event media_play_request) sample_not_ready in
  r.1 = Ok () ∧
  new_effects sample_not_ready r.2 = [stopPropagation; provider_play] ∧
  queue r.2 !! "play" = Some (sample_event media_play_request).
Proof. vm_compute. by repeat split. Qed.

(** *** Seeking *)

Lemma Qle_bool_false (a b : Q) : Qle_bool a b = false → (b < a)%Q.
Proof.
  intros H. destruct (Qlt_le_dec b a) as [Hlt | Hle]; [done |].
  apply Qle_bool_iff in Hle. congruence.
Qed.

(** Turns the boolean comparisons of the context into inequalities. *)
Ltac qprop :=
  repeat match goal with
    | H : Qle_bool _ _ = true |- _ => apply Qle_bool_iff in H
    | H : Qle_bool _ _ = false |- _ => apply Qle_bool_false in H
    | H : negb _ = true |- _ => apply negb_true_iff in H
    | H : negb _ = false |- _ => apply negb_false_iff in H
    end.

(** Splits on every rational comparison in sight. *)
Ltac qcases :=
  repeat match goal with
    | |- context [Qle_bool ?a ?b] => destruct (Qle_bool a b) eqn:?
    end.

(** Unfolds the operations on numbers once their arguments are known to be
    [NaN], an infinity or finite. *)
Ltac num_cases :=
  unfold Math_min, Math_max, add, sub, leb, ltb, isFinite;
  intros; qcases; try done; qprop; exfalso; lra.

Lemma boundTime_above (m : MediaStore) (t : num) :
  isFinite (boundTime m t) = true →
  gtb t (seekableEnd m) = true →
  boundTime m t = sub (seekableEnd m) (Fin 0.1).
Proof.
  unfold boundTime, gtb.
  destruct (seekableStart m) as [| | |s], (seekableEnd m) as [| | |e],
    t as [| | |x]; try done; num_cases.
Qed.

Lemma boundTime_below (m : MediaStore) (t : num) :
  isFinite (boundTime m t) = true →
  ltb t (seekableStart m) = true →
  leb (add (seekableStart m) (Fin 0.1)) (sub (seekableEnd m) (Fin 0.1)) = true →
  boundTime m t = add (seekableStart m) (Fin 0.1).
Proof.
  unfold boundTime.
  destruct (seekableStart m) as [| | |s], (seekableEnd m) as [| | |e],
    t as [| | |x]; try done; num_cases.
Qed.

(** When the window is narrower than the two margins, the upper bound wins. *)
Lemma boundTime_below_narrow (m : MediaStore) (t : num) :
  isFinite (boundTime m t) = true →
  ltb t (seekableStart m) = true →
  leb (add (seekableStart m) (Fin 0.1)) (sub (seekableEnd m) (Fin 0.1)) = false →
  boundTime m t = sub (seekableEnd m) (Fin 0.1).
Proof.
  unfold boundTime.
  destruct (seekableStart m) as [| | |s], (seekableEnd m) as [| | |e],
    t as [| | |x]; try done; num_cases.
Qed.

Lemma boundTime_NaN (m : MediaStore) (t : num) :
  isNaN t = true → isFinite (boundTime m t) = false.
Proof.
  destruct t; try done. intros _.
  unfold boundTime, Math_min, Math_max.
  by destruct (add (seekableStart m) (Fin 0.1)), (sub (seekableEnd m) (Fin 0.1)).
Qed.

Lemma onSeekRequest_commits (event : RequestEvent) (t : num) (w : World)
    (p : MediaProvider) :
  provider w = Some p →
  canSeek (media w) = true →
  isFinite (boundTime (media w) t) = true →
  let r := onSeekRequest event t w in
  provider r.2 = Some (provider_currentTime (boundTime (media w) t) p) ∧
  new_effects w r.2 = [provider_set_currentTime (boundTime (media w) t)] ∧
  queue r.2 !! "seeked" = Some event.
Proof.
  intros Hp Hseek Hfin. unfold onSeekRequest, set_currentTime, nonnull. step.
  destruct (ended (media w)); cbn; rewrite Hfin, Hseek; cbn; rewrite Hp; cbn;
    destruct (live (media w) && isOriginTrusted event && _); cbn;
    (split; [by rewrite Hp |]); (split; [solve_effects |]);
    apply lookup_insert_eq.
Qed.

Lemma onSeekRequest_ignored (event : RequestEvent) (t : num) (w : World) :
  isFinite (boundTime (media w) t) = false ∨ canSeek (media w) = false →
  let r := onSeekRequest event t w in
  r.1 = Ok () ∧ provider r.2 = provider w ∧ trace r.2 = trace w ∧
  queue r.2 = delete "seeking" (queue w).
Proof.
  intros Hignored.
  assert (Hguard : negb (isFinite (boundTime (media w) t))
                   || negb (canSeek (media w)) = true).
  { destruct Hignored as [-> | ->]; [done | apply orb_true_r]. }
  unfold onSeekRequest. step. cbn.
  destruct (ended (media w)); cbn; by rewrite Hguard.
Qed.

(** C3, as the code has it.  A seek request is ignored, the provider's
    current time staying what it was, when the requested time is [NaN], or
    the clamped time is not finite, or seeking is not allowed.  Otherwise
    the provider's current time is set: to [seekableEnd - 0.1] when the
    requested time is past [seekableEnd]; to [seekableStart + 0.1] when it
    is before [seekableStart] and the window leaves room for both margins,
    [seekableStart + 0.1 <= seekableEnd - 0.1]. *)
Theorem seek_request_clamps (event : RequestEvent) (t : num) (w : World)
    (p : MediaProvider) :
  provider w = Some p →
  let m := media w in
  let w' := (onSeekRequest event t w).2 in
  (isNaN t = true ∨ isFinite (boundTime m t) = false ∨ canSeek m = false →
   provider w' = Some p ∧ trace w' = trace w) ∧
  (canSeek m = true → isFinite (boundTime m t) = true →
   (gtb t (seekableEnd m) = true →
    provider w' = Some (provider_currentTime (sub (seekableEnd m) (Fin 0.1)) p) ∧
    new_effects w w' = [provider_set_currentTime (sub (seekableEnd m) (Fin 0.1))]) ∧
   (ltb t (seekableStart m) = true →
    leb (add (seekableStart m) (Fin 0.1)) (sub (seekableEnd m) (Fin 0.1)) = true →
    provider w' = Some (provider_currentTime (add (seekableStart m) (Fin 0.1)) p) ∧
    new_effects w w' = [provider_set_currentTime (add (seekableStart m) (Fin 0.1))])).
Proof.
  intros Hp m w'. subst m w'. split.
  - intros Hignored.
    assert (H : isFinite (boundTime (media w) t) = false ∨ canSeek (media w) = false).
    { destruct Hignored as [Hnan | [Hfin | Hseek]]; [left | by left | by right].
      by apply boundTime_NaN. }
    destruct (onSeekRequest_ignored event t w H) as (_ & Hprov & Htrace & _).
    by rewrite Hprov, Hp.
  - intros Hseek Hfin.
    destruct (onSeekRequest_commits event t w p Hp Hseek Hfin) as (Hprov & Heff & _).
    split.
    + intros Hgt. by rewrite <- (boundTime_above (media w) t).
    + intros Hlt Hroom. by rewrite <- (boundTime_below (media w) t).
Qed.

Lemma seek_request_clamps_witness :
  provider (onSeekRequest (sample_event (media_seek_request (Fin 90))) (Fin 90)
              sample_world).2
  = Some (provider_currentTime (sub (Fin 60) (Fin 0.1)) sample_provider) ∧
  new_effects sample_world
    (onSeekRequest (sample_event (media_seek_request (Fin 90))) (Fin 90)
       sample_world).2
  = [provider_set_currentTime (sub (Fin 60) (Fin 0.1))].
Proof.
  destruct (seek_request_clamps (sample_event (media_seek_request (Fin 90)))
              (Fin 90) sample_world sample_provider eq_refl) as [_ Hset].
  destruct (Hset eq_refl eq_refl) as [Habove _].
  exact (Habove eq_refl).
Defined.

(** C3, as worded: with a seekable window from 10 s to 10.1 s, a request for
    5 s sets the current time to 10 s, which is not [seekableStart + 0.1]. *)
Lemma seek_below_narrow_window_goes_to_upper_bound :
  ¬ seek_clamps_to_nearest_bound
      (sample_event (media_seek_request (Fin 5))) (Fin 5) sample_narrow_window.
Proof.
  unfold seek_clamps_to_nearest_bound. intros Hclaim.
  destruct (Hclaim eq_refl eq_refl eq_refl) as [_ Hbelow].
  destruct (Hbelow eq_refl) as (c & Hc & Heq).
  vm_compute in Hc. injection Hc as <-.
  vm_compute in Heq. discriminate Heq.
Qed.

(** What that run does: the current time becomes 10 s. *)
Example seek_below_narrow_window :
  let r :=
    onSeekRequest (sample_event (media_seek_request (Fin 5))) (Fin 5)
      sample_narrow_window in
  ∃ c, (p_currentTime <$> provider r.2) = Some c ∧
       strict_eq c (Fin 10) = true ∧ strict_eq c (Fin 10.1) = false.
Proof. eexists. vm_compute. by repeat split. Qed.

(** The same on binary64 floats: the clamp of 5 into the window from 10 to
    10.1 is [10.1 - 0.1], which is not [10 + 0.1]. *)
Example seek_below_narrow_window_binary64 :
  let start := 10%float in
  let stop := PrimFloat.div 101%float 10%float in
  let bound := Binary64.boundTime start stop 5%float in
  PrimFloat.eqb bound (PrimFloat.sub stop Binary64.tenth) = true ∧
  PrimFloat.eqb bound (PrimFloat.add start Binary64.tenth) = false.
Proof. vm_compute. by split. Qed.

(** *** Volume *)

Lemma onUnmuteRequest_muted (event : RequestEvent) (w : World) (p : MediaProvider) :
  provider w = Some p →
  muted (media w) = true →
  let r := onUnmuteRequest event w in
  let floor := strict_eq (volume (media w)) (Fin 0) in
  r.1 = Ok () ∧
  provider r.2
  = Some (if floor then provider_volume (Fin 0.25) (provider_muted false p)
          else provider_muted false p) ∧
  new_effects w r.2
  = provider_set_muted false :: (if floor then [provider_set_volume (Fin 0.25)] else []) ∧
  media r.2 = media w ∧
  queue r.2 = <["volume" := event]> (queue w).
Proof.
  intros Hp Hmuted. unfold onUnmuteRequest, set_muted, set_volume, nonnull. step.
  repeat first [progress cbn | rewrite Hmuted | rewrite Hp].
  destruct (strict_eq (volume (media w)) (Fin 0));
    repeat first [progress cbn | rewrite Hp].
  - repeat split; try done.
    + solve_effects.
    + apply insert_insert_eq.
  - repeat split; try done. solve_effects.
Qed.

Lemma onUnmuteRequest_unmuted (event : RequestEvent) (w : World) :
  muted (media w) = false → onUnmuteRequest event w = (Ok (), w).
Proof. intros Hmuted. unfold onUnmuteRequest. step. by rewrite Hmuted. Qed.

Lemma onMuteRequest_unmuted (event : RequestEvent) (w : World) (p : MediaProvider) :
  provider w = Some p →
  muted (media w) = false →
  let r := onMuteRequest event w in
  r.1 = Ok () ∧ provider r.2 = Some (provider_muted true p) ∧ media r.2 = media w.
Proof.
  intros Hp Hmuted. unfold onMuteRequest, set_muted, nonnull. step.
  by repeat first [progress cbn | rewrite Hmuted | rewrite Hp].
Qed.

(** C6.  An unmute request received while muted unmutes the provider and,
    when the volume of the store is exactly 0, also sets the provider's
    volume to 0.25; received while not muted, it changes nothing.  Hence,
    from a volume of 0, a mute request then an unmute request, each followed
    by the store taking the provider's volume state, end with volume 0.25
    and not muted, in the provider and in the store. *)
Theorem unmute_restores_floor_volume (event : RequestEvent) (w : World)
    (p : MediaProvider) :
  provider w = Some p →
  let floor := strict_eq (volume (media w)) (Fin 0) in
  (muted (media w) = true →
   let r := onUnmuteRequest event w in
   r.1 = Ok () ∧
   provider r.2
   = Some (if floor then provider_volume (Fin 0.25) (provider_muted false p)
           else provider_muted false p) ∧
   new_effects w r.2
   = provider_set_muted false
       :: (if floor then [provider_set_volume (Fin 0.25)] else [])) ∧
  (muted (media w) = false → onUnmuteRequest event w = (Ok (), w)) ∧
  (muted (media w) = false → p_volume p = volume (media w) → floor = true →
   ∀ event',
     let w1 := volume_change_settles (onMuteRequest event w).2 in
     let w2 := volume_change_settles (onUnmuteRequest event' w1).2 in
     provider w2 = Some (provider_volume (Fin 0.25) (provider_muted false p)) ∧
     volume (media w2) = Fin 0.25 ∧ muted (media w2) = false).
Proof.
  intros Hp floor. subst floor. split; [| split].
  - intros Hmuted.
    destruct (onUnmuteRequest_muted event w p Hp Hmuted) as (H1 & H2 & H3 & _).
    done.
  - apply onUnmuteRequest_unmuted.
  - intros Hmuted Hmirror Hzero event'.
    destruct (onMuteRequest_unmuted event w p Hp Hmuted) as (_ & Hp1 & Hm1).
    set (w0 := (onMuteRequest event w).2) in *.
    set (w1 := volume_change_settles w0).
    assert (Hw1p : provider w1 = Some (provider_muted true p)).
    { unfold w1, volume_change_settles. by rewrite Hp1. }
    assert (Hw1m : muted (media w1) = true).
    { unfold w1, volume_change_settles. by rewrite Hp1. }
    assert (Hw1v : volume (media w1) = volume (media w)).
    { unfold w1, volume_change_settles. rewrite Hp1. cbn. done. }
    destruct (onUnmuteRequest_muted event' w1 _ Hw1p Hw1m) as (_ & Hp2 & _).
    rewrite Hw1v, Hzero in Hp2. cbn in Hp2.
    unfold volume_change_settles. rewrite Hp2. by cbn.
Qed.

Lemma unmute_restores_floor_volume_witness :
  let w1 :=
    volume_change_settles
      (onMuteRequest (sample_event media_mute_request) sample_silent).2 in
  let w2 :=
    volume_change_settles
      (onUnmuteRequest (sample_event media_unmute_request) w1).2 in
  (p_volume <$> provider w2) = Some (Fin 0.25) ∧
  (p_muted <$> provider w2) = Some false ∧
  volume (media w2) = Fin 0.25 ∧ muted (media w2) = false.
Proof.
  destruct (unmute_restores_floor_volume (sample_event media_mute_request)
              sample_silent (provider_volume (Fin 0) sample_provider) eq_refl)
    as (_ & _ & Hscenario).
  destruct (Hscenario eq_refl eq_refl eq_refl (sample_event media_unmute_request))
    as (Hp & Hv & Hm).
  cbv zeta. rewrite Hp. by repeat split.
Defined.

(** *** Rejected play and pause requests *)

Lemma onPlayRequest_rejected (event : RequestEvent) (w : World)
    (p : MediaProvider) (e : Thrown) :
  provider w = Some p →
  paused (media w) = true →
  play_rejects p = Some e →
  let r := onPlayRequest event w in
  r.1 = Ok () ∧
  new_effects w r.2 = [provider_play; handle (play_fail (coerceToError e) None)] ∧
  queue r.2 = <["play" := event]> (queue w).
Proof.
  intros Hp Hpaused Hrej. unfold onPlayRequest, call_play, nonnull. step.
  repeat first [progress cbn | rewrite Hpaused | rewrite Hp | rewrite Hrej].
  repeat split; try done. solve_effects.
Qed.

Lemma onPauseRequest_rejected (event : RequestEvent) (w : World)
    (p : MediaProvider) (e : Thrown) :
  provider w = Some p →
  paused (media w) = false →
  pause_rejects p = Some e →
  let r := onPauseRequest event w in
  r.1 = Ok () ∧
  new_effects w r.2
  = provider_pause :: (if DEV w && logger w then [log_error "pause-fail" e] else []) ∧
  queue r.2 = delete "pause" (queue w).
Proof.
  intros Hp Hpaused Hrej.
  unfold onPauseRequest, call_pause, nonnull, dev_log_error. step.
  repeat first [progress cbn | rewrite Hpaused | rewrite Hp | rewrite Hrej].
  destruct (DEV w && logger w); cbn; repeat split; try done.
  - solve_effects.
  - apply delete_insert_eq.
  - solve_effects.
  - apply delete_insert_eq.
Qed.

(** C7, as the code has it.  When the provider rejects the [play()] of a
    play request, the handler is given a play-fail event carrying the
    coerced error and no autoplay flag, and the request stays in the queue.
    When the provider rejects the [pause()] of a pause request, no event is
    given to the handler: the pause entry leaves the queue and the error is
    logged when there is a logger in a development build. *)
Theorem rejected_requests (event : RequestEvent) (w : World)
    (p : MediaProvider) (e : Thrown) :
  provider w = Some p →
  (paused (media w) = true → play_rejects p = Some e →
   let r := onPlayRequest event w in
   r.1 = Ok () ∧
   new_effects w r.2 = [provider_play; handle (play_fail (coerceToError e) None)] ∧
   queue r.2 !! "play" = Some event) ∧
  (paused (media w) = false → pause_rejects p = Some e →
   let r := onPauseRequest event w in
   r.1 = Ok () ∧
   new_effects w r.2
   = provider_pause
       :: (if DEV w && logger w then [log_error "pause-fail" e] else []) ∧
   (∀ failure, handle failure ∉ new_effects w r.2) ∧
   queue r.2 !! "pause" = None).
Proof.
  intros Hp. split.
  - intros Hpaused Hrej.
    destruct (onPlayRequest_rejected event w p e Hp Hpaused Hrej) as (H1 & H2 & H3).
    cbv zeta. rewrite H3. repeat split; try done. apply lookup_insert_eq.
  - intros Hpaused Hrej.
    destruct (onPauseRequest_rejected event w p e Hp Hpaused Hrej) as (H1 & H2 & H3).
    cbv zeta. rewrite H2, H3. repeat split; try done.
    + intros failure Hin. rewrite list_elem_of_In in Hin.
      destruct (DEV w && logger w); simpl in Hin; intuition congruence.
    + apply lookup_delete_eq.
Qed.

Lemma rejected_requests_witness :
  new_effects sample_rejecting
    (onPlayRequest (sample_event media_play_request) sample_rejecting).2
  = [provider_play;
     handle (play_fail (coerceToError (Reason "NotAllowedError")) None)] ∧
  queue (onPlayRequest (sample_event media_play_request) sample_rejecting).2
    !! "play"
  = Some (sample_event media_play_request).
Proof.
  destruct (rejected_requests (sample_event media_play_request) sample_rejecting
              {| p_muted := false; p_volume := Fin 1; p_currentTime := Fin 0;
                 play_rejects := Some (Reason "NotAllowedError");
                 pause_rejects := Some (Reason "AbortError");
                 p_fullscreen := None |}
              (Reason "NotAllowedError") eq_refl) as [Hplay _].
  destruct (Hplay eq_refl eq_refl) as (_ & Heffects & Hqueue).
  by split.
Defined.

(** C7, as worded: the play-fail event of a rejected play request has no
    autoplay flag. *)
Lemma play_request_failure_has_no_autoplay_flag :
  ¬ play_fail_carries_autoplay_flag
      (sample_event media_play_request) sample_rejecting.
Proof.
  unfold play_fail_carries_autoplay_flag. intros Hclaim.
  destruct (Hclaim _ (Reason "NotAllowedError") eq_refl eq_refl eq_refl)
    as [flag Hin].
  rewrite list_elem_of_In in Hin. vm_compute in Hin.
  intuition congruence.
Qed.

(** The [return provider!.play()] of [play()]: the rejection of the
    provider's promise is the rejection of [play()], and the [catch] block
    does not run. *)
Lemma play_rejection_passes_catch (w : World) (p : MediaProvider) (e : Thrown) :
  provider w = Some p →
  player_canPlay w = true →
  paused (media w) = true →
  ended (media w) = false →
  play_rejects p = Some e →
  (play w).1 = Throw e ∧ new_effects w (play w).2 = [provider_play].
Proof.
  intros Hp Hready Hpaused Hended Hrej.
  unfold play, throwIfNotReadyForPlayback, call_play, nonnull. step.
  repeat first [progress cbn | rewrite Hpaused | rewrite Hp | rewrite Hready
               | rewrite Hended | rewrite Hrej].
  split; [done | solve_effects].
Qed.

(** *** Fullscreen and orientation *)

Lemma enterFullscreen_with_lock (target : option FullscreenTarget) (w : World)
    (t : string) :
  fullscreenOrientation w = Some t →
  o_supported (orientation w) = true →
  let r := enterFullscreen target w in
  match select_fs (default target_prefer_media target) w with
  | Some (owner, a) =>
      if fs_supported a && negb (fs_active a) then
        match lock_rejects (orientation w) with
        | Some e => r.1 = Throw e ∧ new_effects w r.2 = [orientation_lock t]
        | None =>
            r.1 = match enter_rejects a with Some e => Throw e | None => Ok () end ∧
            new_effects w r.2 = [orientation_lock t; fs_enter owner]
        end
      else new_effects w r.2 = []
  | None => new_effects w r.2 = []
  end.
Proof.
  intros Hlock Hsupp.
  unfold enterFullscreen, throwIfFullscreenNotSupported, await_orientation_lock.
  step. cbn.
  destruct (select_fs _ w) as [[owner a]|]; cbn;
    [| solve_effects].
  destruct (fs_supported a); cbn; [| solve_effects].
  destruct (fs_active a); cbn; [solve_effects |].
  rewrite Hlock, Hsupp. cbn.
  destruct (lock_rejects (orientation w)); cbn.
  - split; [done | solve_effects].
  - destruct (enter_rejects a); cbn; (split; [done |]);
      solve_effects.
Qed.

Lemma exitFullscreen_with_lock (target : option FullscreenTarget) (w : World) :
  o_locked (orientation w) = true →
  let r := exitFullscreen target w in
  match select_fs (default target_prefer_media target) w with
  | Some (owner, a) =>
      if fs_supported a && fs_active a then
        match unlock_rejects (orientation w) with
        | Some e => r.1 = Throw e ∧ new_effects w r.2 = [orientation_unlock]
        | None =>
            r.1 = match exit_rejects a with Some e => Throw e | None => Ok () end ∧
            new_effects w r.2 = [orientation_unlock; fs_exit owner]
        end
      else new_effects w r.2 = []
  | None => new_effects w r.2 = []
  end.
Proof.
  intros Hlocked.
  unfold exitFullscreen, throwIfFullscreenNotSupported, await_orientation_unlock.
  step. cbn.
  destruct (select_fs _ w) as [[owner a]|]; cbn;
    [| solve_effects].
  destruct (fs_supported a); cbn; [| solve_effects].
  destruct (fs_active a); cbn; [| solve_effects].
  rewrite Hlocked. cbn.
  destruct (unlock_rejects (orientation w)); cbn.
  - split; [done | solve_effects].
  - destruct (exit_rejects a); cbn; (split; [done |]);
      solve_effects.
Qed.

(** Where an effect sits in a list of at most two. *)
Lemma split_two {A : Type} (a b x : A) (pre post : list A) :
  [a; b] = pre ++ x :: post →
  (pre = [] ∧ x = a ∧ post = [b]) ∨ (pre = [a] ∧ x = b ∧ post = []).
Proof.
  destruct pre as [|a' [|b' pre]]; simpl; intros H.
  - left. by injection H as -> ->.
  - right. by injection H as -> -> <-.
  - injection H as _ _ H. by destruct pre.
Qed.

Lemma split_one {A : Type} (a x : A) (pre post : list A) :
  [a] = pre ++ x :: post → pre = [] ∧ x = a ∧ post = [].
Proof.
  destruct pre as [|a' pre]; simpl; intros H.
  - by injection H as -> <-.
  - injection H as _ H. by destruct pre.
Qed.

Lemma unsupported_select_fs (target : FullscreenTarget) (w : World) :
  fs_supported (fullscreen w) = false →
  (∀ p a, provider w = Some p → p_fullscreen p = Some a → fs_supported a = false) →
  match select_fs target w with
  | Some (_, a) => fs_supported a = false
  | None => True
  end.
Proof.
  intros Hplayer Hprovider. unfold select_fs. rewrite Hplayer, andb_false_r.
  simpl. case_bool_decide; [done |].
  destruct (provider w) as [p|] eqn:Hp; [| done].
  destruct (p_fullscreen p) as [a|] eqn:Ha; [| done].
  by apply (Hprovider p a).
Qed.

Lemma fullscreen_unsupported_throws (target : option FullscreenTarget) (w : World) :
  fs_supported (fullscreen w) = false →
  (∀ p a, provider w = Some p → p_fullscreen p = Some a → fs_supported a = false) →
  let err :=
    Error (noFullscreenMessage (DEV w) (default target_prefer_media target)) in
  enterFullscreen target w = (Throw err, w) ∧
  exitFullscreen target w = (Throw err, w).
Proof.
  intros Hplayer Hprovider.
  pose proof (unsupported_select_fs (default target_prefer_media target) w
                Hplayer Hprovider) as Hfs.
  unfold enterFullscreen, exitFullscreen, throwIfFullscreenNotSupported. step. cbn.
  destruct (select_fs _ w) as [[owner a]|]; [| done].
  by rewrite Hfs.
Qed.

(** C9.  With an orientation preference [t] set and the orientation adapter
    supported, a call of an adapter's [enter()] made by [enterFullscreen]
    comes directly after [orientation.lock(t)], whose promise resolved; and
    the two calls are made, in this order, whenever the chosen adapter is
    supported and not active and the lock resolves.  With the orientation
    locked, the same holds of [exitFullscreen], [orientation.unlock()] and
    [exit()].  When neither the player's adapter nor the provider's is
    supported, both functions throw, and the request handlers hand a
    fullscreen-error event with the coerced error to the handler. *)
Theorem fullscreen_after_orientation (target : option FullscreenTarget) (w : World) :
  let chosen := select_fs (default target_prefer_media target) w in
  (∀ t, fullscreenOrientation w = Some t → o_supported (orientation w) = true →
     let made := new_effects w (enterFullscreen target w).2 in
     (∀ pre owner post,
        made = pre ++ fs_enter owner :: post →
        pre = [orientation_lock t] ∧ post = [] ∧
        lock_rejects (orientation w) = None) ∧
     (∀ owner a,
        chosen = Some (owner, a) → fs_supported a = true → fs_active a = false →
        lock_rejects (orientation w) = None →
        made = [orientation_lock t; fs_enter owner])) ∧
  (o_locked (orientation w) = true →
     let made := new_effects w (exitFullscreen target w).2 in
     (∀ pre owner post,
        made = pre ++ fs_exit owner :: post →
        pre = [orientation_unlock] ∧ post = [] ∧
        unlock_rejects (orientation w) = None) ∧
     (∀ owner a,
        chosen = Some (owner, a) → fs_supported a = true → fs_active a = true →
        unlock_rejects (orientation w) = None →
        made = [orientation_unlock; fs_exit owner])) ∧
  (fs_supported (fullscreen w) = false →
   (∀ p a, provider w = Some p → p_fullscreen p = Some a → fs_supported a = false) →
   let err :=
     Error (noFullscreenMessage (DEV w) (default target_prefer_media target)) in
   enterFullscreen target w = (Throw err, w) ∧
   exitFullscreen target w = (Throw err, w) ∧
   ∀ event,
     let r1 := onEnterFullscreenRequest event target w in
     let r2 := onExitFullscreenRequest event target w in
     r1.1 = Ok () ∧
     new_effects w r1.2 = [handle (fullscreen_error (coerceToError err))] ∧
     r2.1 = Ok () ∧
     new_effects w r2.2 = [handle (fullscreen_error (coerceToError err))]).
Proof.
  intros chosen. subst chosen. split; [| split].
  - intros t Hlock Hsupp made. subst made.
    pose proof (enterFullscreen_with_lock target w t Hlock Hsupp) as Hcases.
    cbv zeta in Hcases.
    destruct (select_fs _ w) as [[owner0 a0]|]; split.
    + intros pre owner post Heq. rewrite Heq in Hcases.
      destruct (fs_supported a0 && negb (fs_active a0));
        [| by destruct pre].
      destruct (lock_rejects (orientation w)).
      * destruct Hcases as [_ Hc]. symmetry in Hc.
        apply split_one in Hc as (_ & Hc & _). discriminate Hc.
      * destruct Hcases as [_ Hc]. symmetry in Hc.
        apply split_two in Hc as [(_ & Hc & _) | (-> & _ & ->)]; [discriminate Hc | done].
    + intros owner a [= <- <-] Hs Ha Hl. rewrite Hs, Ha, Hl in Hcases.
      by destruct Hcases.
    + intros pre owner post Heq. rewrite Heq in Hcases. by destruct pre.
    + intros owner a [=].
  - intros Hlocked made. subst made.
    pose proof (exitFullscreen_with_lock target w Hlocked) as Hcases.
    cbv zeta in Hcases.
    destruct (select_fs _ w) as [[owner0 a0]|]; split.
    + intros pre owner post Heq. rewrite Heq in Hcases.
      destruct (fs_supported a0 && fs_active a0); [| by destruct pre].
      destruct (unlock_rejects (orientation w)).
      * destruct Hcases as [_ Hc]. symmetry in Hc.
        apply split_one in Hc as (_ & Hc & _). discriminate Hc.
      * destruct Hcases as [_ Hc]. symmetry in Hc.
        apply split_two in Hc as [(_ & Hc & _) | (-> & _ & ->)]; [discriminate Hc | done].
    + intros owner a [= <- <-] Hs Ha Hl. rewrite Hs, Ha, Hl in Hcases.
      by destruct Hcases.
    + intros pre owner post Heq. rewrite Heq in Hcases. by destruct pre.
    + intros owner a [=].
  - intros Hplayer Hprovider err. subst err.
    destruct (fullscreen_unsupported_throws target w Hplayer Hprovider)
      as [Henter Hexit].
    split; [done |]. split; [done |].
    intros event.
    assert (Hq : ∀ k, enterFullscreen target (with_queue k w)
                      = (Throw (Error (noFullscreenMessage (DEV w)
                                         (default target_prefer_media target))),
                         with_queue k w) ∧
                      exitFullscreen target (with_queue k w)
                      = (Throw (Error (noFullscreenMessage (DEV w)
                                         (default target_prefer_media target))),
                         with_queue k w)).
    { intros k. apply (fullscreen_unsupported_throws target (with_queue k w));
        done. }
    unfold onEnterFullscreenRequest, onExitFullscreenRequest. step. cbn.
    destruct (Hq (insert "fullscreen" event)) as [-> ->]. cbn.
    repeat split; solve_effects.
Qed.

Lemma fullscreen_after_orientation_witness :
  new_effects sample_landscape (enterFullscreen None sample_landscape).2
  = [orientation_lock "landscape"; fs_enter PlayerFs].
Proof.
  destruct (fullscreen_after_orientation None sample_landscape) as [Henter _].
  destruct (Henter "landscape" eq_refl eq_refl) as [_ Hmade].
  exact (Hmade PlayerFs sample_fullscreen eq_refl eq_refl eq_refl eq_refl).
Defined.

(** *** The shared listener *)

Lemma safe_ret {A : Type} (a : A) : safe (mret a).
Proof. intros w Hp. split; [done |]. exists []. split; [by rewrite app_nil_r | apply not_elem_of_nil]. Qed.

Lemma safe_throw {A : Type} (e : Thrown) : safe (@throw A e).
Proof. intros w Hp. split; [done |]. exists []. split; [by rewrite app_nil_r | apply not_elem_of_nil]. Qed.

Lemma safe_gets {A : Type} (f : World → A) : safe (gets f).
Proof. intros w Hp. split; [done |]. exists []. split; [by rewrite app_nil_r | apply not_elem_of_nil]. Qed.

Lemma safe_bind {A B : Type} (m : M A) (k : A → M B) :
  safe m → (∀ a, safe (k a)) → safe (m ≫= k).
Proof.
  intros Hm Hk w Hp. unfold mbind, M_bind.
  destruct (Hm w Hp) as [Hp1 (xs & Ht1 & Hxs)].
  destruct (m w) as [[a | e] w1]; simpl in *.
  - destruct (Hk a w1 Hp1) as [Hp2 (ys & Ht2 & Hys)].
    split; [done |]. exists (xs ++ ys).
    rewrite Ht2, Ht1, app_assoc. split; [done |].
    rewrite elem_of_app. tauto.
  - split; [done |]. by exists xs.
Qed.

Lemma safe_try_catch {A : Type} (body : M A) (handler : Thrown → M A) :
  safe body → (∀ e, safe (handler e)) → safe (try_catch body handler).
Proof.
  intros Hm Hk w Hp. unfold try_catch.
  destruct (Hm w Hp) as [Hp1 (xs & Ht1 & Hxs)].
  destruct (body w) as [[a | e] w1]; simpl in *.
  - split; [done |]. by exists xs.
  - destruct (Hk e w1 Hp1) as [Hp2 (ys & Ht2 & Hys)].
    split; [done |]. exists (xs ++ ys).
    rewrite Ht2, Ht1, app_assoc. split; [done |].
    rewrite elem_of_app. tauto.
Qed.

Lemma safe_gets_provider {B : Type} (k : option MediaProvider → M B) :
  (∀ p, is_Some p → safe (k p)) → safe (gets provider ≫= k).
Proof. intros Hk w Hp. unfold mbind, M_bind, gets. by apply Hk. Qed.

Lemma safe_modify (f : World → World) :
  (∀ w, is_Some (provider w) → is_Some (provider (f w))) →
  (∀ w, trace (f w) = trace w) →
  safe (modify f).
Proof.
  intros Hprov Htrace w Hp. unfold modify. simpl.
  split; [by apply Hprov |]. exists [].
  split; [by rewrite Htrace, app_nil_r | apply not_elem_of_nil].
Qed.

Lemma safe_emit (e : Effect) : e ≠ null_provider_dereference → safe (emit e).
Proof.
  intros He w Hp. unfold emit, modify. simpl. split; [done |].
  exists [e]. split; [done |]. by rewrite list_elem_of_singleton.
Qed.

Lemma safe_when (b : bool) (m : M unit) : safe m → safe (when b m).
Proof. intros Hm. destruct b; [done | apply safe_ret]. Qed.

Lemma safe_settle (rejects : option Thrown) : safe (settle rejects).
Proof. destruct rejects; [apply safe_throw | apply safe_ret]. Qed.

Lemma safe_nonnull (p : option MediaProvider) : is_Some p → safe (nonnull p).
Proof. intros [x ->]. apply safe_ret. Qed.

Lemma fmap_is_Some_provider (f : MediaProvider → MediaProvider) (w : World) :
  is_Some (provider w) → is_Some (provider (with_provider (fmap f) w)).
Proof. intros [x Hx]. simpl. rewrite Hx. by eexists. Qed.

(** Proves [safe] by following the code. *)
Ltac safe_step :=
  lazymatch goal with
  | |- safe (mbind _ (gets provider)) => apply safe_gets_provider; intros ? ?
  | |- safe (mbind _ _) => apply safe_bind; [| intros ?]
  | |- safe (mret _) => apply safe_ret
  | |- safe (throw _) => apply safe_throw
  | |- safe (gets _) => apply safe_gets
  | |- safe (emit _) => apply safe_emit; discriminate
  | |- safe (when _ _) => apply safe_when
  | |- safe (settle _) => apply safe_settle
  | |- safe (try_catch _ _) => apply safe_try_catch; [| intros ?]
  | |- safe (nonnull _) => by apply safe_nonnull
  | |- safe (modify (with_provider (fmap _))) =>
      apply safe_modify; [apply fmap_is_Some_provider | done]
  | |- safe (modify _) => apply safe_modify; [done | done]
  | |- safe (if ?b then _ else _) => destruct b
  | |- safe (match ?x with _ => _ end) => destruct x
  end.

Ltac safe_auto := repeat (cbv zeta; safe_step).

Lemma safe_play : safe play.
Proof.
  unfold play, throwIfNotReadyForPlayback, set_currentTime, call_play,
    handler_handle.
  safe_auto.
Qed.

Lemma safe_seekToLiveEdge : safe seekToLiveEdge.
Proof.
  unfold seekToLiveEdge, throwIfNotReadyForPlayback, set_currentTime.
  safe_auto.
Qed.

Lemma safe_enterFullscreen (target : option FullscreenTarget) :
  safe (enterFullscreen target).
Proof.
  unfold enterFullscreen, throwIfFullscreenNotSupported, await_orientation_lock.
  safe_auto.
Qed.

Lemma safe_exitFullscreen (target : option FullscreenTarget) :
  safe (exitFullscreen target).
Proof.
  unfold exitFullscreen, throwIfFullscreenNotSupported, await_orientation_unlock.
  safe_auto.
Qed.

Lemma safe_eventHandlers (event : RequestEvent) : safe (eventHandlers event).
Proof.
  unfold eventHandlers.
  destruct (request event);
    unfold onStartLoading, onMuteRequest, onUnmuteRequest, onPlayRequest,
      onPauseRequest, onSeekingRequest, onSeekRequest, onSeekToLiveEdgeRequest,
      onVolumeChangeRequest, onEnterFullscreenRequest, onExitFullscreenRequest,
      onResumeIdlingRequest, onPauseIdlingRequest, onShowPosterRequest,
      onHidePosterRequest, onLoopRequest, not_awaited,
      _enqueue, _delete, handler_handle, dev_log_error,
      set_muted, set_volume, set_currentTime, call_play, call_pause.
  all: safe_auto.
  all: try apply safe_seekToLiveEdge.
  all: try apply safe_enterFullscreen.
  all: try apply safe_exitFullscreen.
Qed.

Lemma safe_listener (event : RequestEvent) : safe (listener event).
Proof.
  unfold listener, logRequest. safe_auto. apply safe_eventHandlers.
Qed.

Lemma listener_without_provider (event : RequestEvent) (w : World) :
  provider w = None →
  listener event w =
  (Ok (),
   with_trace
     (λ t, t ++ stopPropagation
             :: (if DEV w && logger w
                 then [log_request (event_type (request event))] else []))
     w).
Proof.
  intros Hnone. unfold listener, logRequest. step.
  destruct (DEV w) eqn:Hdev, (logger w) eqn:Hlog;
    repeat first [progress cbn | rewrite Hnone | rewrite Hdev | rewrite Hlog];
    unfold with_trace; cbn; by rewrite <- ?app_assoc.
Qed.

(** What the dropped event leaves alone. *)
Lemma listener_without_provider_frame (event : RequestEvent) (w : World) :
  provider w = None →
  let w' := (listener event w).2 in
  media w' = media w ∧ queue w' = queue w ∧ provider w' = None ∧
  isSeeking w' = isSeeking w ∧ isLooping w' = isLooping w ∧
  isReplay w' = isReplay w ∧ idle_paused w' = idle_paused w.
Proof.
  intros Hnone. cbv zeta. by rewrite listener_without_provider.
Qed.

(** [play()] checks the provider before it uses it. *)
Lemma play_never_uses_null (w : World) :
  ∃ xs, trace (play w).2 = trace w ++ xs ∧ null_provider_dereference ∉ xs.
Proof.
  destruct (provider w) as [p|] eqn:Hp.
  - destruct (safe_play w) as [_ Hxs]; [by rewrite Hp | done].
  - destruct (paused (media w)) eqn:Hpaused.
    + rewrite play_not_ready by (done || by left).
      eexists. split; [reflexivity |].
      rewrite list_elem_of_singleton. discriminate.
    + exists []. unfold play. step. rewrite Hpaused.
      split; [by rewrite app_nil_r | apply not_elem_of_nil].
Qed.

(** So does the callback of a loop request, whenever the frame comes. *)
Lemma loopCallback_never_uses_null (w : World) :
  null_provider_dereference ∉ new_effects w (loopCallback w).2.
Proof.
  unfold loopCallback. step. cbn.
  destruct (play_never_uses_null (with_isReplay true (with_isLooping true w)))
    as (xs & Htrace & Hxs).
  destruct (play (with_isReplay true (with_isLooping true w))) as [[[]|e] w'];
    cbn in *; by rewrite (new_effects_app _ _ xs).
Qed.

(** C10.  With no provider attached, the listener only stops the
    propagation of the event (and logs it in a development build): no
    handler runs, so the store, the queue, the flags and the provider slot
    are what they were.  And whatever the world, no run of the listener
    uses a [null] provider, nor does the callback a loop request leaves
    for the next animation frame. *)
Theorem listener_needs_provider (event : RequestEvent) (w : World) :
  (provider w = None →
   listener event w =
   (Ok (),
    with_trace
      (λ t, t ++ stopPropagation
              :: (if DEV w && logger w
                  then [log_request (event_type (request event))] else []))
      w)) ∧
  (null_provider_dereference ∉ new_effects w (listener event w).2) ∧
  (null_provider_dereference ∉ new_effects w (loopCallback w).2).
Proof.
  split; [apply listener_without_provider |].
  split; [| apply loopCallback_never_uses_null].
  destruct (provider w) as [p|] eqn:Hp.
  - destruct (safe_listener event w) as [_ (xs & Ht & Hxs)]; [by rewrite Hp |].
    by rewrite (new_effects_app _ _ xs).
  - rewrite listener_without_provider by done.
    rewrite (new_effects_app _ _
               (stopPropagation
                  :: (if DEV w && logger w
                      then [log_request (event_type (request event))] else [])))
      by done.
    rewrite list_elem_of_In.
    destruct (DEV w && logger w); simpl; intuition congruence.
Qed.

Lemma listener_needs_provider_witness :
  listener (sample_event media_mute_request) sample_detached
  = (Ok (), with_trace (λ t, t ++ [stopPropagation]) sample_detached).
Proof.
  destruct (listener_needs_provider (sample_event media_mute_request)
              sample_detached) as [Hdropped _].
  exact (Hdropped eq_refl).
Defined.

(** Called past the listener with no provider, a handler does use the
    [null] provider. *)
Example onMuteRequest_detached :
  onMuteRequest (sample_event media_mute_request) sample_detached
  = (Throw (TypeError "Cannot read properties of null"),
     with_trace (λ t, t ++ [null_provider_dereference])
       (with_queue (insert "volume" (sample_event media_mute_request))
          sample_detached)).
Proof. reflexivity. Qed.

End RequestManagerSpec.

(* ===================================================================== *)
(** ** Further properties of source selection *)
(* ===================================================================== *)

Module SourceSelectionFacts.
Import SourceSelection SourceSelectionRest SourceSelectionSpec.

Lemma findLoader_is_Some (loaders : list MediaProviderLoader) (s : MediaSrc) :
  is_Some (findLoader loaders s) ↔ ∃ l, l ∈ loaders ∧ canPlay l s = true.
Proof.
  split.
  - intros [l Hl]. exists l. unfold findLoader in Hl.
    apply find_some in Hl as [Hin Hcan]. by rewrite list_elem_of_In.
  - intros H. destruct (findLoader_Some loaders s H) as (l & Hl & _).
    by exists l.
Qed.

(** The source the loop ends on depends only on which sources are
    playable. *)
Lemma selected_source_by_playability (loaders1 loaders2 : list MediaProviderLoader)
    (sources : list MediaSrc) :
  (∀ s, is_Some (findLoader loaders1 s) ↔ is_Some (findLoader loaders2 s)) →
  ∀ acc1 acc2 : Selection,
    acc1.1 = acc2.1 →
    (fold_left (selectStep loaders1) sources acc1).1
    = (fold_left (selectStep loaders2) sources acc2).1.
Proof.
  intros Hsame. induction sources as [|s sources IH]; intros acc1 acc2 Hacc; simpl.
  - done.
  - apply IH. unfold selectStep. specialize (Hsame s).
    destruct (findLoader loaders1 s) as [l1|], (findLoader loaders2 s) as [l2|];
      simpl; try done.
    + destruct Hsame as [Hsame _]. by destruct Hsame.
    + destruct Hsame as [_ Hsame]. by destruct Hsame.
Qed.

(** X1.  The [preferNativeHLS] flag does not change the source that is
    selected, only the loader a source more than one loader can play goes
    to: the HLS loader when the flag is off and it can play the source, the
    video loader when the flag is on and it can play the source. *)
Theorem preference_keeps_source (sources : list MediaSrc)
    (HLS VIDEO AUDIO : MediaProviderLoader) :
  (selectSource sources (loaders_of true HLS VIDEO AUDIO)).1
  = (selectSource sources (loaders_of false HLS VIDEO AUDIO)).1 ∧
  (∀ s, canPlay HLS s = true →
        findLoader (loaders_of false HLS VIDEO AUDIO) s = Some HLS) ∧
  (∀ s, canPlay VIDEO s = true →
        findLoader (loaders_of true HLS VIDEO AUDIO) s = Some VIDEO).
Proof.
  split; [| split].
  - unfold selectSource. apply selected_source_by_playability; [| done].
    intros s. rewrite !findLoader_is_Some. unfold loaders_of.
    split; intros (l & Hin & Hcan); exists l; (split; [| done]);
      rewrite !elem_of_cons in Hin; rewrite !elem_of_cons; tauto.
  - intros s Hs. unfold findLoader, loaders_of. simpl. by rewrite Hs.
  - intros s Hs. unfold findLoader, loaders_of. simpl. by rewrite Hs.
Qed.

Lemma unplayable_selects_nothing (sources : list MediaSrc)
    (loaders : list MediaProviderLoader) :
  (∀ s l, s ∈ sources → l ∈ loaders → canPlay l s = false) →
  selectSource sources loaders = noSelection.
Proof.
  intros Hno. unfold selectSource. apply unplayable_tail_kept.
  intros s Hs. apply findLoader_None. intros l Hl. by apply Hno.
Qed.

(** X2.  When no loader can play any source (an empty list included), the
    loop ends on the empty source and no loader: the effect dispatches a
    source-change to the empty source with media type unknown if the
    current source is not the empty one already, and detaches the provider
    and clears the loader if a loader was current. *)
Theorem nothing_playable (sources : list MediaSrc)
    (loaders : list MediaProviderLoader) (currentSource : MediaSrc)
    (currentLoader : option MediaProviderLoader) :
  (∀ s l, s ∈ sources → l ∈ loaders → canPlay l s = false) →
  selectSource sources loaders = ({| src := SrcString ""; type := "" |}, None) ∧
  selectionEffect sources currentSource currentLoader loaders
  = cleared currentSource currentLoader.
Proof.
  intros Hno. pose proof (unplayable_selects_nothing sources loaders Hno) as Hsel.
  split; [done |].
  unfold selectionEffect, cleared. rewrite Hsel. simpl.
  by destruct currentLoader.
Qed.

Lemma nothing_playable_witness :
  selectSource [] sample_loaders = ({| src := SrcString ""; type := "" |}, None) ∧
  selectionEffect [] sample_A (Some (plays_type VIDEO_LOADER "video/mp4" video))
    sample_loaders
  = [source_change {| src := SrcString ""; type := "" |};
     media_type_change unknown; provider_change_null;
     provider_loader_change None].
Proof.
  apply (nothing_playable [] sample_loaders sample_A
           (Some (plays_type VIDEO_LOADER "video/mp4" video))).
  intros s l Hs. by apply elem_of_nil in Hs.
Defined.

(** X3.  Once the selection is the current source and loader, the effect
    dispatches nothing: re-running it on unchanged sources is silent. *)
Theorem selection_is_stable (sources : list MediaSrc)
    (loaders : list MediaProviderLoader) :
  selectionEffect sources (selectSource sources loaders).1
    (selectSource sources loaders).2 loaders
  = [].
Proof.
  unfold selectionEffect.
  destruct (selectSource sources loaders) as [newSource newLoader]; simpl.
  unfold sourceDiffers, loaderDiffers.
  by rewrite !bool_decide_eq_true_2.
Qed.

(** X4.  Normalization keeps the number and the order of the entries, and
    sources that already have a type come back unchanged: normalizing is
    idempotent.  A single entry or a bare value gives exactly one source. *)
Theorem normalizeSrc_round_trip :
  (∀ l, normalizeSrc (PropArray (map typed_entry l)) = l) ∧
  (∀ entries, length (normalizeSrc (PropArray entries)) = length entries ∧
              map src (normalizeSrc (PropArray entries)) = map entry_src entries) ∧
  (∀ p, normalizeSrc (PropArray (map typed_entry (normalizeSrc p)))
        = normalizeSrc p) ∧
  (∀ entry, length (normalizeSrc (PropEntry entry)) = 1) ∧
  (∀ v, length (normalizeSrc (PropBare v)) = 1).
Proof.
  assert (Hround : ∀ l, normalizeSrc (PropArray (map typed_entry l)) = l).
  { intros l. unfold normalizeSrc. induction l as [|[v t] l IH]; simpl; [done |].
    by rewrite IH. }
  split; [done |]. split; [| split; [| done]].
  - intros entries. unfold normalizeSrc. split; [apply length_map |].
    by rewrite map_map.
  - intros p. apply Hround.
Qed.

End SourceSelectionFacts.

(* ===================================================================== *)
(** ** Properties of the video loader and of source loading *)
(* ===================================================================== *)

Module SourceLoadingFacts.
Import SourceSelection SourceSelectionSpec.

(** X5.  A source given without a type whose [src] is a handle or a
    [blob:] string is, once normalized, playable by the video loader
    whatever the runtime supports; given last, it is the source selected as
    soon as the video loader is among the loaders. *)
Theorem untyped_blob_or_handle_is_playable (env : VideoProviderLoader.Support)
    (e : SrcEntry) :
  entry_type e = None →
  isString (entry_src e) = false ∨ startsWith_blob (entry_src e) = true →
  VideoProviderLoader.canPlay env (normalizeEntry e) = true ∧
  ∀ loaders pre,
    VideoProviderLoader.loader env ∈ loaders →
    ∃ l, selectSource (pre ++ [normalizeEntry e]) loaders
         = (normalizeEntry e, Some l).
Proof.
  intros Htype Hsrc.
  assert (Hcan : VideoProviderLoader.canPlay env (normalizeEntry e) = true).
  { unfold VideoProviderLoader.canPlay, normalizeEntry. rewrite Htype. simpl.
    destruct (entry_src e) as [url|h]; simpl in *.
    - destruct Hsrc as [Hsrc | Hsrc]; [discriminate |].
      rewrite Hsrc. simpl. rewrite orb_true_r. done.
    - done. }
  split; [done |].
  intros loaders pre Hin.
  destruct (findLoader_Some loaders (normalizeEntry e)) as (l & Hfind & _).
  { by exists (VideoProviderLoader.loader env). }
  exists l. apply selectSource_last; [done |].
  intros s Hs. by apply elem_of_nil in Hs.
Qed.

Lemma untyped_blob_or_handle_is_playable_witness :
  VideoProviderLoader.canPlay VideoProviderLoader.sample_support
    (normalizeEntry VideoProviderLoader.sample_blob_entry)
  = true.
Proof.
  destruct (untyped_blob_or_handle_is_playable VideoProviderLoader.sample_support
              VideoProviderLoader.sample_blob_entry eq_refl (or_intror eq_refl))
    as [Hcan _].
  exact Hcan.
Defined.

Import SourceLoading.

(** X6.  While loading is not allowed, neither effect sets the provider up
    or hands it a source: at most the provider's own preconnect and a
    preconnect to the origin of a string source are issued, and a source
    that is no URL yields no call but a log line in a development build.
    Once loading is allowed, an attached provider is set up and given the
    current source with the preload hint, and nothing is preconnected;
    with no provider attached nothing is set up or loaded. *)
Theorem loading_is_deferred (ctx : Context) :
  (canLoad ctx = false →
   Forall (λ c, starts_loading c = false) (setupEffect ctx ++ loadEffect ctx) ∧
   ∀ url, src (source ctx) = SrcString url → URL_origin ctx url = None →
          loadEffect ctx
          = if DEV ctx && logger ctx then [log_preconnect_failure url] else []) ∧
  (canLoad ctx = true →
   ∀ p, provider ctx = Some p →
        setupEffect ctx = [provider_setup] ∧
        loadEffect ctx = [provider_loadSource (source ctx) (preload ctx)]) ∧
  (provider ctx = None →
   setupEffect ctx = [] ∧ (canLoad ctx = true → loadEffect ctx = [])).
Proof.
  unfold setupEffect, loadEffect. split; [| split].
  - intros ->. split.
    + destruct (provider ctx) as [[[]]|], (src (source ctx)) as [url|h]; simpl;
        try destruct (URL_origin ctx url); try destruct (DEV ctx && logger ctx);
        by repeat constructor.
    + intros url -> ->. done.
  - intros -> p ->. done.
  - intros ->. split; [done |]. by intros ->.
Qed.

End SourceLoadingFacts.

(* ===================================================================== *)
(** ** Further properties of the HLS engine callbacks *)
(* ===================================================================== *)

Module UseHLSFacts.
Import UseHLS UseHLSRest UseHLSSpec.

Lemma union_absorbs (L S : gset string) (t : string) :
  t ∈ L → L ∪ ({[t]} ∪ S) = L ∪ S.
Proof.
  intros Hin. apply set_eq. intros x.
  rewrite !elem_of_union, elem_of_singleton.
  split; [intros [H | [-> | H]] | intros [H | H]]; auto.
Qed.

Lemma union_moves (L S : gset string) (t : string) :
  ({[t]} ∪ L) ∪ S = L ∪ ({[t]} ∪ S).
Proof.
  apply set_eq. intros x. rewrite !elem_of_union, elem_of_singleton. tauto.
Qed.

Lemma filter_first_occurrences_in (listening : gset string) (t : string)
    (l : list string) :
  t ∈ listening →
  filter (λ u, u ∉ listening) (filter (λ u, u ≠ t) l)
  = filter (λ u, u ∉ listening) l.
Proof.
  intros Hin. induction l as [|u l IH]; [done |].
  rewrite !filter_cons. destruct (decide (u ≠ t)) as [Hne | Heq].
  - rewrite filter_cons. by rewrite IH.
  - apply dec_stable in Heq as ->.
    destruct (decide (t ∉ listening)); [done | apply IH].
Qed.

Lemma filter_first_occurrences_out (listening : gset string) (t : string)
    (l : list string) :
  filter (λ u, u ∉ listening) (filter (λ u, u ≠ t) l)
  = filter (λ u, u ∉ {[t]} ∪ listening) l.
Proof.
  induction l as [|u l IH]; [done |].
  rewrite !filter_cons. destruct (decide (u ≠ t)) as [Hne | Heq].
  - rewrite filter_cons, IH.
    destruct (decide (u ∉ listening)) as [Hout | Hin].
    + rewrite decide_True; [done |].
      rewrite not_elem_of_union, not_elem_of_singleton. done.
    + rewrite decide_False; [done |].
      rewrite not_elem_of_union. tauto.
  - apply dec_stable in Heq as ->. rewrite IH.
    rewrite decide_False; [done |].
    rewrite not_elem_of_union, not_elem_of_singleton. tauto.
Qed.

Lemma attach_fold (toHLSEventType : string → string) (listeners : list string) :
  ∀ (listening : gset string) (made : list string),
    fold_left (attachOne toHLSEventType) listeners (listening, made)
    = (listening ∪ list_to_set listeners,
       made ++ map toHLSEventType
                 (filter (λ t, t ∉ listening) (first_occurrences listeners))).
Proof.
  induction listeners as [|t listeners IH]; intros listening made; simpl.
  - by rewrite app_nil_r, union_empty_r_L.
  - unfold attachOne at 2. simpl. rewrite filter_cons. case_bool_decide as Hin.
    + rewrite decide_False by tauto.
      rewrite IH, union_absorbs by done.
      by rewrite filter_first_occurrences_in.
    + rewrite decide_True by done.
      rewrite IH, union_moves, filter_first_occurrences_out. simpl.
      by rewrite <- app_assoc.
Qed.

Lemma first_occurrences_spec (l : list string) :
  NoDup (first_occurrences l) ∧ ∀ t, t ∈ first_occurrences l ↔ t ∈ l.
Proof.
  induction l as [|u l [IHnodup IHin]]; simpl.
  - split; [constructor | done].
  - split.
    + constructor; [| by apply NoDup_filter].
      rewrite list_elem_of_filter. tauto.
    + intros t. rewrite !elem_of_cons, list_elem_of_filter, IHin.
      destruct (decide (t = u)); tauto.
Qed.

(** X7.  [attachEventListeners] subscribes the listener types that are not
    yet in [listening], each once and in the order of their first
    occurrence in the list, and adds all the types to [listening]; a second
    run with the same listeners subscribes nothing. *)
Theorem attachEventListeners_once (toHLSEventType : string → string)
    (listeners : list string) (listening : gset string) :
  let r := attachEventListeners toHLSEventType listeners listening in
  let fresh := filter (λ t, t ∉ listening) (first_occurrences listeners) in
  r.1 = listening ∪ list_to_set listeners ∧
  r.2 = map toHLSEventType fresh ∧
  NoDup fresh ∧
  (∀ t, t ∈ fresh ↔ t ∈ listeners ∧ t ∉ listening) ∧
  attachEventListeners toHLSEventType listeners r.1 = (r.1, []).
Proof.
  unfold attachEventListeners. cbv zeta. rewrite !attach_fold. simpl.
  destruct (first_occurrences_spec listeners) as [Hnodup Hin].
  split; [done |]. split; [done |]. split; [by apply NoDup_filter |]. split.
  - intros t. rewrite list_elem_of_filter, Hin. tauto.
  - f_equal.
    + apply set_eq. intros x. rewrite !elem_of_union. tauto.
    + assert (Hnone : ∀ l : list string,
                 (∀ t, t ∈ l → t ∈ listeners) →
                 filter (λ t, t ∉ listening ∪ list_to_set listeners) l = []).
      { induction l as [|u l IH]; intros Hl; [done |].
        rewrite filter_cons, decide_False.
        - apply IH. intros t Ht. apply Hl. by apply list_elem_of_further.
        - intros Hout. apply Hout. apply elem_of_union_r.
          apply elem_of_list_to_set. apply Hl. apply list_elem_of_here. }
      rewrite Hnone; [done |]. intros t. by rewrite Hin.
Qed.

(** Listed twice, a type is subscribed where it comes first. *)
Example attachEventListeners_in_order :
  attachEventListeners (λ t, "hls" +:+ t) ["b"; "a"; "b"; "c"; "a"] {["c"]}
  = ({["a"; "b"; "c"]}, ["hlsb"; "hlsa"]).
Proof.
  unfold attachEventListeners. rewrite attach_fold. by f_equal.
Qed.

Lemma onError_without_instance (eventType : string) (data : ErrorData)
    (st : State) :
  instance st = None →
  instance (onError eventType data st) = None ∧
  trace (onError eventType data st) = trace st ++ diagnostics eventType st.
Proof.
  intros Hnone. unfold onError, diagnostics, call_instance.
  destruct (DEV st && logger st); simpl; rewrite Hnone;
    destruct (fatal data); try destruct (String.eqb _ "networkError");
    try destruct (String.eqb _ "mediaError"); simpl;
    by rewrite ?app_nil_r.
Qed.

Lemma onErrors_without_instance (errors : list (string * ErrorData)) :
  ∀ st, instance st = None →
        instance (onErrors errors st) = None ∧
        ∃ xs, trace (onErrors errors st) = trace st ++ xs ∧
              Forall (λ e, engine_call e = false) xs.
Proof.
  unfold onErrors.
  induction errors as [|[eventType data] errors IH]; intros st Hnone; simpl.
  - split; [done |]. exists []. by rewrite app_nil_r.
  - destruct (onError_without_instance eventType data st Hnone) as [Hinst Htrace].
    destruct (IH _ Hinst) as [Hfinal (xs & Hxs & Hall)].
    split; [done |]. exists (diagnostics eventType st ++ xs).
    rewrite Hxs, Htrace, app_assoc. split; [done |].
    apply Forall_app. split; [| done].
    unfold diagnostics. destruct (DEV st && logger st); by repeat constructor.
Qed.

(** X8.  After a fatal error that is neither a network nor a media error,
    the published instance is [null], and whatever errors the engine still
    reports, of any kind, no method of an instance is called again and the
    instance stays [null]. *)
Theorem no_engine_call_after_destroy (eventType : string) (data : ErrorData)
    (st : State) (errors : list (string * ErrorData)) :
  fatal data = true →
  error_type data ≠ "networkError" →
  error_type data ≠ "mediaError" →
  let st1 := onError eventType data st in
  let st2 := onErrors errors st1 in
  instance st1 = None ∧ instance st2 = None ∧
  ∃ xs, trace st2 = trace st1 ++ xs ∧ Forall (λ e, engine_call e = false) xs.
Proof.
  intros Hfatal Hnet Hmedia st1 st2.
  assert (Hnone : instance st1 = None).
  { unfold st1, onError. rewrite Hfatal.
    apply String.eqb_neq in Hnet, Hmedia. by rewrite Hnet, Hmedia. }
  split; [done |]. by apply onErrors_without_instance.
Qed.

Lemma no_engine_call_after_destroy_witness :
  let st1 := onError "hlsError" sample_other_error sample_state in
  let st2 := onErrors [("hlsError", sample_network_error)] st1 in
  instance st1 = None ∧ instance st2 = None ∧
  ∃ xs, trace st2 = trace st1 ++ xs ∧ Forall (λ e, engine_call e = false) xs.
Proof.
  apply (no_engine_call_after_destroy "hlsError" sample_other_error sample_state
           [("hlsError", sample_network_error)]).
  - reflexivity.
  - discriminate.
  - discriminate.
Defined.

(** X9.  Before can-play, a level-loaded event dispatches the stream type
    and the duration whether or not an instance is published; the callback
    returns normally exactly when an instance with a media element is
    published, and then ends by dispatching [canplay] on that element;
    otherwise it throws after the two events.  It never changes the
    published instance. *)
Theorem onLevelLoaded_completion (details : LevelDetails) (st : State) :
  store_canPlay st = false →
  let r := onLevelLoaded details st in
  let first :=
    [stream_type_change (streamTypeOf details);
     duration_change (totalduration details)] in
  instance r.2 = instance st ∧
  (r.1 = Returns ↔ ∃ i el, instance st = Some i ∧ media i = Some el) ∧
  (∀ i el, instance st = Some i → media i = Some el →
           trace r.2 = trace st ++ first ++ [media_dispatch_canplay el]) ∧
  (r.1 = ThrowsTypeError → trace r.2 = trace st ++ first).
Proof.
  intros Hcan. unfold onLevelLoaded. rewrite Hcan. cbn.
  destruct (instance st) as [[id [el|]]|] eqn:Hi; cbn; rewrite ?Hi.
  - split; [done |]. split; [| split].
    + split; [intros _; by eexists _, _ | done].
    + intros i el' [= <-] [= <-]. by rewrite <- !app_assoc.
    + discriminate.
  - split; [done |]. split; [| split].
    + split; [discriminate | by intros (i & el & [= <-] & ?)].
    + by intros i el [= <-] ?.
    + intros _. by rewrite <- !app_assoc.
  - split; [done |]. split; [| split].
    + split; [discriminate | by intros (i & el & ? & ?)].
    + by intros i el ?.
    + intros _. by rewrite <- !app_assoc.
Qed.

Lemma onLevelLoaded_completion_witness :
  (onLevelLoaded sample_live_details sample_state).1 = Returns.
Proof.
  destruct (onLevelLoaded_completion sample_live_details sample_state eq_refl)
    as (_ & [_ Hreturns] & _).
  apply Hreturns. by eexists _, _.
Defined.

End UseHLSFacts.

(* ===================================================================== *)
(** ** Further properties of the media request manager *)
(* ===================================================================== *)

Module RequestManagerFacts.
Import RequestManager RequestManagerRest RequestManagerSpec.

(** *** Volume *)

Lemma onVolumeChangeRequest_same (event : RequestEvent) (v : num) (w : World) :
  strict_eq (volume (media w)) v = true →
  onVolumeChangeRequest event v w = (Ok (), w).
Proof. intros Hsame. unfold onVolumeChangeRequest. step. by rewrite Hsame. Qed.

Lemma onVolumeChangeRequest_changed (event : RequestEvent) (v : num) (w : World)
    (p : MediaProvider) :
  provider w = Some p →
  strict_eq (volume (media w)) v = false →
  let r := onVolumeChangeRequest event v w in
  let unmute := gtb v (Fin 0) && muted (media w) in
  r.1 = Ok () ∧
  provider r.2
  = Some (if unmute then provider_muted false (provider_volume v p)
          else provider_volume v p) ∧
  new_effects w r.2
  = provider_set_volume v :: (if unmute then [provider_set_muted false] else []) ∧
  queue r.2 !! "volume" = Some event.
Proof.
  intros Hp Hnew. unfold onVolumeChangeRequest, set_volume, set_muted, nonnull. step.
  repeat first [progress cbn -[gtb] | rewrite Hnew | rewrite Hp].
  destruct (gtb v (Fin 0) && muted (media w));
    repeat first [progress cbn | rewrite Hp].
  - repeat split; try done; [solve_effects |].
    rewrite insert_insert_eq. apply lookup_insert_eq.
  - repeat split; try done; [solve_effects | apply lookup_insert_eq].
Qed.

(** X10.  A volume-change request for the volume the store already has
    changes nothing.  Any other sets the provider's volume and records the
    event; it also unmutes the provider exactly when the new volume is
    above 0 and the store is muted.  A [NaN] volume is never taken for
    unchanged: it is handed to the provider, and it never unmutes. *)
Theorem volume_change_request (event : RequestEvent) (v : num) (w : World)
    (p : MediaProvider) :
  provider w = Some p →
  let m := media w in
  let r := onVolumeChangeRequest event v w in
  let unmute := gtb v (Fin 0) && muted m in
  (strict_eq (volume m) v = true → r = (Ok (), w)) ∧
  (strict_eq (volume m) v = false →
   r.1 = Ok () ∧
   provider r.2
   = Some (if unmute then provider_muted false (provider_volume v p)
           else provider_volume v p) ∧
   new_effects w r.2
   = provider_set_volume v :: (if unmute then [provider_set_muted false] else []) ∧
   queue r.2 !! "volume" = Some event) ∧
  (isNaN v = true → strict_eq (volume m) v = false ∧ unmute = false).
Proof.
  intros Hp m r unmute. subst m r unmute. split; [| split].
  - apply onVolumeChangeRequest_same.
  - by apply onVolumeChangeRequest_changed.
  - destruct v; try done. intros _. split; [| done].
    by destruct (volume (media w)).
Qed.

Lemma volume_change_request_witness :
  let r :=
    onVolumeChangeRequest (sample_event (media_volume_change_request (Fin 0.8)))
      (Fin 0.8) sample_live in
  provider r.2
  = Some (provider_muted false (provider_volume (Fin 0.8) sample_provider)) ∧
  new_effects sample_live r.2
  = [provider_set_volume (Fin 0.8); provider_set_muted false].
Proof.
  destruct (volume_change_request
              (sample_event (media_volume_change_request (Fin 0.8))) (Fin 0.8)
              sample_live sample_provider eq_refl) as (_ & Hnew & _).
  destruct (Hnew eq_refl) as (_ & Hprovider & Heffects & _).
  by split.
Defined.

(** X11.  A volume-change request settles: once the store has taken the
    provider's volume state, the store has the requested volume and the
    same request again changes nothing.  And a request for the volume the
    store already has does not unmute, even when that volume is above 0. *)
Theorem volume_change_settles_once (event event' : RequestEvent) (v : num)
    (w : World) (p : MediaProvider) :
  provider w = Some p →
  p_volume p = volume (media w) →
  p_muted p = muted (media w) →
  isNaN v = false →
  let w1 := volume_change_settles (onVolumeChangeRequest event v w).2 in
  strict_eq (volume (media w1)) v = true ∧
  onVolumeChangeRequest event' v w1 = (Ok (), w1) ∧
  (strict_eq (volume (media w)) v = true → muted (media w1) = muted (media w)).
Proof.
  intros Hp Hvolume Hmuted Hnum w1.
  assert (Hsame : strict_eq v v = true).
  { destruct v as [| | |q]; try done. apply Qeq_bool_iff. reflexivity. }
  pose proof (onVolumeChangeRequest_same event v w) as Hnoop.
  pose proof (onVolumeChangeRequest_changed event v w p Hp) as Hchange.
  cbv zeta in Hchange.
  assert (Hsettled : strict_eq (volume (media w1)) v = true ∧
                     (strict_eq (volume (media w)) v = true →
                      muted (media w1) = muted (media w))).
  { subst w1. destruct (strict_eq (volume (media w)) v) eqn:Hold.
    - rewrite (Hnoop eq_refl). unfold volume_change_settles. cbn [snd].
      rewrite Hp. cbn. by rewrite Hvolume, Hmuted.
    - destruct (Hchange eq_refl) as (_ & Hprovider & _).
      unfold volume_change_settles. rewrite Hprovider.
      by destruct (gtb v (Fin 0) && muted (media w)). }
  destruct Hsettled as [Hnow Hquiet]. split; [done |]. split; [| done].
  unfold onVolumeChangeRequest. step. by rewrite Hnow.
Qed.

Lemma volume_change_settles_once_witness :
  let w1 :=
    volume_change_settles
      (onVolumeChangeRequest (sample_event (media_volume_change_request (Fin 0.8)))
         (Fin 0.8) sample_world).2 in
  onVolumeChangeRequest (sample_event (media_volume_change_request (Fin 0.8)))
    (Fin 0.8) w1
  = (Ok (), w1).
Proof.
  destruct (volume_change_settles_once
              (sample_event (media_volume_change_request (Fin 0.8)))
              (sample_event (media_volume_change_request (Fin 0.8)))
              (Fin 0.8) sample_world sample_provider eq_refl eq_refl eq_refl eq_refl)
    as (_ & Hagain & _).
  exact Hagain.
Defined.

(** *** The live edge *)

Lemma seekToLiveEdge_ready (w : World) (p : MediaProvider) :
  provider w = Some p →
  player_canPlay w = true →
  negb (live (media w)) || liveEdge (media w) || negb (canSeek (media w)) = false →
  let target :=
    default (sub (seekableEnd (media w)) (Fin 2)) (liveSyncPosition (media w)) in
  seekToLiveEdge w =
  (Ok (),
   with_trace (λ t, t ++ [provider_set_currentTime target])
     (with_provider (fmap (provider_currentTime target))
        (with_media (store_userBehindLiveEdge false) w))).
Proof.
  intros Hp Hready Hguard.
  unfold seekToLiveEdge, throwIfNotReadyForPlayback, set_currentTime, nonnull. step.
  unfold player_canPlay in *.
  repeat first [progress cbn | rewrite Hguard | rewrite Hp | rewrite Hready].
  by destruct (liveSyncPosition (media w)).
Qed.

(** X12.  A live-edge request is ignored when the stream is not live, is at
    the live edge already or cannot seek.  Otherwise the event is recorded
    and the behind-live-edge flag is cleared; with the provider ready its
    current time is set to the live sync position of the store, or to
    [seekableEnd - 2] when the store has none; before can-play nothing is
    set, the handler still returns normally, the error is only logged and
    the event stays recorded. *)
Theorem live_edge_request (event : RequestEvent) (w : World) (p : MediaProvider) :
  provider w = Some p →
  let m := media w in
  let r := onSeekToLiveEdgeRequest event w in
  let target := default (sub (seekableEnd m) (Fin 2)) (liveSyncPosition m) in
  (negb (live m) || liveEdge m || negb (canSeek m) = true → r = (Ok (), w)) ∧
  (negb (live m) || liveEdge m || negb (canSeek m) = false →
   r.1 = Ok () ∧
   userBehindLiveEdge (media r.2) = false ∧
   queue r.2 !! "seeked" = Some event ∧
   (player_canPlay w = true →
    provider r.2 = Some (provider_currentTime target p) ∧
    new_effects w r.2 = [provider_set_currentTime target]) ∧
   (player_canPlay w = false →
    provider r.2 = Some p ∧
    new_effects w r.2
    = if DEV w && logger w
      then [log_error "seek to live edge fail" (Error (notReadyMessage (DEV w)))]
      else [])).
Proof.
  intros Hp m r target. subst m r target. split.
  - intros Hguard. unfold onSeekToLiveEdgeRequest. step. by rewrite Hguard.
  - intros Hguard. unfold onSeekToLiveEdgeRequest, dev_log_error. step.
    rewrite Hguard. cbn.
    destruct (player_canPlay w) eqn:Hready.
    + rewrite (seekToLiveEdge_ready _ p) by done. cbn. rewrite Hp.
      repeat split; try done; [apply lookup_insert_eq | solve_effects].
    + apply orb_false_elim in Hguard as [Hguard Hseek].
      apply orb_false_elim in Hguard as [Hlive Hedge].
      apply negb_false_iff in Hlive, Hseek.
      rewrite seekToLiveEdge_not_ready by (done || by right). cbn.
      destruct (DEV w && logger w); cbn;
        repeat split; try done; try apply lookup_insert_eq; solve_effects.
Qed.

Lemma live_edge_request_witness :
  let r := onSeekToLiveEdgeRequest (sample_event media_live_edge_request) sample_live in
  provider r.2 = Some (provider_currentTime (sub (Fin 60) (Fin 2)) sample_provider) ∧
  userBehindLiveEdge (media r.2) = false.
Proof.
  destruct (live_edge_request (sample_event media_live_edge_request) sample_live
              sample_provider eq_refl) as [_ Hseek].
  destruct (Hseek eq_refl) as (_ & Hflag & _ & Hready & _).
  destruct (Hready eq_refl) as [Hprovider _].
  by split.
Defined.

(** X13.  What the live-sync loop writes into the store is never
    [undefined]: it is the engine's position, or [Infinity] when the engine
    has none.  So once the loop has sampled, [seekToLiveEdge] hands that
    value to the provider, [Infinity] included, and never falls back to
    [seekableEnd - 2]. *)
Theorem live_sync_sample_is_seek_target (position : option num) (w : World)
    (p : MediaProvider) :
  provider w = Some p →
  player_canPlay w = true →
  live (media w) = true → liveEdge (media w) = false → canSeek (media w) = true →
  let sampled := UseHLSRest.liveSyncSample position in
  let w1 := with_media (store_liveSyncPosition (Some sampled)) w in
  let r := seekToLiveEdge w1 in
  r.1 = Ok () ∧
  provider r.2 = Some (provider_currentTime sampled p) ∧
  new_effects w1 r.2 = [provider_set_currentTime sampled] ∧
  (position = None → sampled = PosInf).
Proof.
  intros Hp Hready Hlive Hedge Hseek sampled w1 r. subst r.
  rewrite (seekToLiveEdge_ready w1 p).
  - cbn. rewrite Hp. repeat split; [apply drop_app_length | by intros ->].
  - done.
  - done.
  - cbn. by rewrite Hlive, Hedge, Hseek.
Qed.

Lemma live_sync_sample_is_seek_target_witness :
  let w1 :=
    with_media (store_liveSyncPosition (Some (UseHLSRest.liveSyncSample None)))
      sample_live in
  provider (seekToLiveEdge w1).2 = Some (provider_currentTime PosInf sample_provider).
Proof.
  destruct (live_sync_sample_is_seek_target None sample_live sample_provider
              eq_refl eq_refl eq_refl eq_refl eq_refl) as (_ & Hprovider & _).
  exact Hprovider.
Defined.

(** *** Seeking *)

(** What [onSeekRequest] does whether or not it commits the seek. *)
Lemma onSeekRequest_outcome (event : RequestEvent) (t : num) (w : World)
    (p : MediaProvider) :
  provider w = Some p →
  let m := media w in
  let r := onSeekRequest event t w in
  r.1 = Ok () ∧
  isSeeking r.2 = false ∧
  queue r.2 !! "seeking" = None ∧
  isReplay r.2 = ended m || isReplay w ∧
  seeking (media r.2) = seeking m ∧
  userBehindLiveEdge (media r.2)
  = isFinite (boundTime m t) && canSeek m && live m && isOriginTrusted event
    && farFromLiveEdge m (boundTime64 m t)
    || userBehindLiveEdge m.
Proof.
  intros Hp m r. subst m r.
  unfold onSeekRequest, set_currentTime, nonnull. step.
  destruct (isFinite (boundTime (media w) t)) eqn:Hfin,
    (canSeek (media w)) eqn:Hseek, (ended (media w)) eqn:Hended;
    repeat first [progress cbn -[boundTime isFinite farFromLiveEdge boundTime64]
                 | rewrite Hfin | rewrite Hseek | rewrite Hp];
    try (destruct (live (media w) && isOriginTrusted event
                   && farFromLiveEdge (media w) (boundTime64 (media w) t));
         cbn -[boundTime isFinite farFromLiveEdge boundTime64]);
    repeat split; try done;
    try (rewrite lookup_insert_ne by done); apply lookup_delete_eq.
Qed.

(** X14.  The bookkeeping of a seek request, whether or not the seek is
    committed to the provider: the handler returns normally, the seeking
    flag of the request context is cleared, the record of the seeking
    request is dropped, and a seek on ended media arms the replay flag.  The
    user is marked as behind the live edge exactly by a committed seek of a
    trusted event on a live stream for which the comparison
    [Math.abs(seekableEnd - boundTime) >= 2], made on doubles, holds;
    otherwise the mark stays what it was. *)
Theorem seek_request_bookkeeping (event : RequestEvent) (t : num) (w : World)
    (p : MediaProvider) :
  provider w = Some p →
  let m := media w in
  let r := onSeekRequest event t w in
  r.1 = Ok () ∧
  isSeeking r.2 = false ∧
  queue r.2 !! "seeking" = None ∧
  isReplay r.2 = ended m || isReplay w ∧
  userBehindLiveEdge (media r.2)
  = committed m t && live m && isOriginTrusted event
    && farFromLiveEdge m (boundTime64 m t)
    || userBehindLiveEdge m ∧
  (committed m t && live m && isOriginTrusted event = false →
   userBehindLiveEdge (media r.2) = userBehindLiveEdge m).
Proof.
  intros Hp m r.
  destruct (onSeekRequest_outcome event t w p Hp)
    as (Hok & Hseeking & Hqueue & Hreplay & _ & Hbehind).
  do 4 (split; [done |]). split; [done |].
  intros Hnot. subst r m. rewrite Hbehind. unfold committed in Hnot.
  by rewrite Hnot.
Qed.

Lemma seek_request_bookkeeping_witness :
  let r := onSeekRequest (sample_event (media_seek_request (Fin 0.3))) (Fin 0.3)
             (sample_live_window (Fin 2.3)) in
  isSeeking r.2 = false ∧ userBehindLiveEdge (media r.2) = false.
Proof.
  destruct (seek_request_bookkeeping (sample_event (media_seek_request (Fin 0.3)))
              (Fin 0.3) (sample_live_window (Fin 2.3)) sample_provider eq_refl)
    as (_ & Hseeking & _ & _ & Hbehind & _).
  split; [exact Hseeking |]. rewrite Hbehind. by vm_compute.
Defined.

(** On doubles [2.3 - 0.3] is below 2, and [2.5] minus the double after
    [0.5] is 2: a seek to 0.3 in a live window ending at 2.3 does not mark
    the user as behind the live edge, a seek to the double after 0.5 in a
    window ending at 2.5 does. *)
Example seek_two_seconds_from_the_live_edge :
  let after_half := Fin (4503599627370497 # 9007199254740992) in
  PrimFloat.eqb (Binary64.of_num after_half) (PrimFloat.next_up 0.5%float) = true ∧
  farFromLiveEdge (media (sample_live_window (Fin 2.3)))
    (boundTime64 (media (sample_live_window (Fin 2.3))) (Fin 0.3)) = false ∧
  userBehindLiveEdge
    (media (onSeekRequest (sample_event (media_seek_request after_half)) after_half
              (sample_live_window (Fin 2.5))).2) = true.
Proof. vm_compute. by repeat split. Qed.

(** X15.  A seeking request followed by a seek request: the seeking flag of
    the request context and the record of the seeking request are gone
    again, but the [seeking] flag of the store, which the seeking request
    raised, is still up, also when the seek itself was ignored: no handler
    of the request manager lowers it. *)
Theorem seeking_then_seek (dragging seek : RequestEvent) (t : num) (w : World)
    (p : MediaProvider) :
  provider w = Some p →
  let w1 := (onSeekingRequest dragging w).2 in
  let r := onSeekRequest seek t w1 in
  queue w1 !! "seeking" = Some dragging ∧ isSeeking w1 = true ∧
  r.1 = Ok () ∧
  queue r.2 !! "seeking" = None ∧ isSeeking r.2 = false ∧
  seeking (media r.2) = true.
Proof.
  intros Hp w1 r.
  assert (Hp1 : provider w1 = Some p) by done.
  destruct (onSeekRequest_outcome seek t w1 p Hp1)
    as (Hok & Hflag & Hqueue & _ & Hstore & _).
  split; [apply lookup_insert_eq |]. split; [done |].
  split; [done |]. split; [done |]. split; [done |].
  subst r. by rewrite Hstore.
Qed.

Lemma seeking_then_seek_witness :
  let w1 := (onSeekingRequest (sample_event (media_seeking_request (Fin 30)))
               sample_world).2 in
  seeking (media (onSeekRequest (sample_event (media_seek_request NaN)) NaN w1).2)
  = true.
Proof.
  destruct (seeking_then_seek (sample_event (media_seeking_request (Fin 30)))
              (sample_event (media_seek_request NaN)) NaN sample_world
              sample_provider eq_refl) as (_ & _ & _ & _ & _ & Hstore).
  exact Hstore.
Defined.

(** *** Playback *)

(** X16.  [play()] and [pause()] once the provider is ready.  Called while
    playing, [play()] does nothing, and so does [pause()] called while
    paused.  Otherwise [play()] calls the provider's [play()], after a reset
    of the current time to [seekableStart + 0.1] when the media has ended,
    and [pause()] calls the provider's [pause()]; the promise either
    returns is the provider's, resolved or rejected alike, and no play-fail
    event is made. *)
Theorem playback_when_ready (w : World) (p : MediaProvider) :
  provider w = Some p →
  player_canPlay w = true →
  let m := media w in
  let reset := add (seekableStart m) (Fin 0.1) in
  (paused m = false → play w = (Ok (), w)) ∧
  (paused m = true → pause w = (Ok (), w)) ∧
  (paused m = true →
   (play w).1 = match play_rejects p with Some e => Throw e | None => Ok () end ∧
   provider (play w).2
   = Some (if ended m then provider_currentTime reset p else p) ∧
   new_effects w (play w).2
   = (if ended m then [provider_set_currentTime reset] else []) ++ [provider_play]) ∧
  (paused m = false →
   (pause w).1 = match pause_rejects p with Some e => Throw e | None => Ok () end ∧
   provider (pause w).2 = Some p ∧
   new_effects w (pause w).2 = [provider_pause]).
Proof.
  intros Hp Hready m reset. subst m reset.
  unfold play, pause, throwIfNotReadyForPlayback, call_play, call_pause,
    set_currentTime, nonnull. step.
  split; [| split; [| split]]; intros Hpaused;
    repeat first [progress cbn | rewrite Hpaused | rewrite Hp | rewrite Hready];
    try done.
  - destruct (ended (media w)), (play_rejects p);
      repeat first [progress cbn | rewrite Hp];
      (split; [done |]); (split; [done |]);
      solve_effects.
  - destruct (pause_rejects p); cbn; (split; [done |]); (split; [done |]);
      solve_effects.
Qed.

Lemma playback_when_ready_witness :
  provider (play sample_ended).2
  = Some (provider_currentTime (add (Fin 0) (Fin 0.1)) sample_provider) ∧
  new_effects sample_ended (play sample_ended).2
  = [provider_set_currentTime (add (Fin 0) (Fin 0.1)); provider_play].
Proof.
  destruct (playback_when_ready sample_ended sample_provider eq_refl eq_refl)
    as (_ & _ & Hplay & _).
  destruct (Hplay eq_refl) as (_ & Hprovider & Heffects).
  by split.
Defined.

(** *** The loop callback *)

(** [play()] neither reads nor writes the looping and replay flags. *)
Lemma play_frames_flags (looping replay : bool) (w : World) :
  play (with_isReplay replay (with_isLooping looping w))
  = ((play w).1, with_isReplay replay (with_isLooping looping (play w).2)).
Proof.
  unfold play, throwIfNotReadyForPlayback, call_play, set_currentTime, nonnull,
    player_canPlay.
  step. cbn.
  destruct (paused (media w)); cbn; [| done].
  destruct (provider w) as [p|]; cbn; [| done].
  destruct (player w && canPlay (media w)); cbn; [| done].
  destruct (ended (media w)); cbn; by destruct (play_rejects p).
Qed.

(** X17.  The callback of a loop request never rejects.  It makes the
    effects of [play()]; after it the looping and replay flags are both
    up when [play()] resolved and both down when it rejected, whatever they
    were before. *)
Theorem loopCallback_flags (w : World) :
  let r := loopCallback w in
  r.1 = Ok () ∧
  new_effects w r.2 = new_effects w (play w).2 ∧
  provider r.2 = provider (play w).2 ∧
  isLooping r.2 = isReplay r.2 ∧
  (isLooping r.2 = true ↔ (play w).1 = Ok ()).
Proof.
  unfold loopCallback. step. cbn. rewrite play_frames_flags.
  destruct (play w) as [[[]|e] w']; cbn; by intuition.
Qed.

(** *** The listener *)

Lemma completes_ret {A : Type} (a : A) : completes (mret a).
Proof. intros w Hp. split; [done | by exists a]. Qed.

Lemma completes_gets {A : Type} (f : World → A) : completes (gets f).
Proof. intros w Hp. split; [done | by eexists]. Qed.

Lemma completes_bind {A B : Type} (m : M A) (k : A → M B) :
  completes m → (∀ a, completes (k a)) → completes (m ≫= k).
Proof.
  intros Hm Hk w Hp. unfold mbind, M_bind.
  destruct (Hm w Hp) as [Hp1 [a Ha]].
  destruct (m w) as [[a' | e] w1]; simpl in *; [| done].
  by apply Hk.
Qed.

Lemma completes_gets_provider {B : Type} (k : option MediaProvider → M B) :
  (∀ p, is_Some p → completes (k p)) → completes (gets provider ≫= k).
Proof. intros Hk w Hp. unfold mbind, M_bind, gets. by apply Hk. Qed.

Lemma completes_try_catch {A : Type} (body : M A) (handler : Thrown → M A) :
  safe body → (∀ e, completes (handler e)) → completes (try_catch body handler).
Proof.
  intros Hm Hk w Hp. unfold try_catch.
  destruct (Hm w Hp) as [Hp1 _].
  destruct (body w) as [[a | e] w1]; simpl in *.
  - split; [done | by exists a].
  - by apply Hk.
Qed.

Lemma completes_modify (f : World → World) :
  (∀ w, is_Some (provider w) → is_Some (provider (f w))) → completes (modify f).
Proof. intros Hprov w Hp. split; [by apply Hprov | by exists ()]. Qed.

Lemma completes_emit (e : Effect) : completes (emit e).
Proof. by apply completes_modify. Qed.

Lemma completes_when (b : bool) (m : M unit) : completes m → completes (when b m).
Proof. intros Hm. destruct b; [done | apply completes_ret]. Qed.

Lemma completes_nonnull (p : option MediaProvider) :
  is_Some p → completes (nonnull p).
Proof. intros [x ->]. apply completes_ret. Qed.

(** Proves [completes] by following the code. *)
Ltac completes_step :=
  lazymatch goal with
  | |- completes (mbind _ (gets provider)) =>
      apply completes_gets_provider; intros ? ?
  | |- completes (mbind _ _) => apply completes_bind; [| intros ?]
  | |- completes (mret _) => apply completes_ret
  | |- completes (gets _) => apply completes_gets
  | |- completes (emit _) => apply completes_emit
  | |- completes (when _ _) => apply completes_when
  | |- completes (try_catch _ _) => apply completes_try_catch; [| intros ?]
  | |- completes (nonnull _) => by apply completes_nonnull
  | |- completes (modify (with_provider (fmap _))) =>
      apply completes_modify; apply fmap_is_Some_provider
  | |- completes (modify _) => by apply completes_modify
  | |- completes (if ?b then _ else _) => destruct b
  end.

Ltac completes_auto := repeat (cbv zeta; completes_step).

Lemma completes_eventHandlers (event : RequestEvent) :
  completes (eventHandlers event).
Proof.
  unfold eventHandlers.
  destruct (request event);
    unfold onStartLoading, onMuteRequest, onUnmuteRequest, onSeekingRequest,
      onSeekRequest, onSeekToLiveEdgeRequest, onVolumeChangeRequest,
      onResumeIdlingRequest, onPauseIdlingRequest, onShowPosterRequest,
      onHidePosterRequest, onLoopRequest, not_awaited,
      _enqueue, _delete, handler_handle, dev_log_error,
      set_muted, set_volume, set_currentTime.
  all: completes_auto.
  all: try apply safe_seekToLiveEdge.
  all: unfold onPlayRequest, onPauseRequest, onEnterFullscreenRequest,
         onExitFullscreenRequest, _enqueue, _delete, handler_handle,
         dev_log_error, call_play, call_pause.
  all: safe_auto.
  all: try apply safe_enterFullscreen.
  all: try apply safe_exitFullscreen.
Qed.

(** What an [async] handler whose [catch] block cannot throw resolves to. *)
Lemma try_catch_resolves (body : M unit) (handler : Thrown → M unit) (w : World) :
  (∀ e w', (handler e w').1 = Ok ()) → (try_catch body handler w).1 = Ok ().
Proof.
  intros Hk. unfold try_catch. destruct (body w) as [[[] | e] w1]; [done |].
  apply Hk.
Qed.

(** X18.  The listener never throws: with a provider attached, no
    synchronous handler throws, and the promise of an [async] one is not
    kept.  And the promises of the four [async] handlers never reject,
    provider or not: whatever fails in them is caught. *)
Theorem listener_never_throws (event : RequestEvent) (w : World) :
  (listener event w).1 = Ok () ∧
  (onPlayRequest event w).1 = Ok () ∧
  (onPauseRequest event w).1 = Ok () ∧
  (∀ target, (onEnterFullscreenRequest event target w).1 = Ok ()) ∧
  (∀ target, (onExitFullscreenRequest event target w).1 = Ok ()).
Proof.
  split; [| split; [| split; [| split]]].
  - destruct (provider w) as [p|] eqn:Hp.
    + assert (Hlistener : completes (listener event)).
      { unfold listener, logRequest. completes_auto.
        apply completes_eventHandlers. }
      destruct (Hlistener w) as [_ [[] Hok]]; [by rewrite Hp | done].
    + by rewrite listener_without_provider.
  - unfold onPlayRequest. step. destruct (negb (paused (media w))); [done |].
    by apply try_catch_resolves.
  - unfold onPauseRequest. step. destruct (paused (media w)); [done |].
    apply try_catch_resolves. intros e w'. unfold dev_log_error. step. cbn.
    by destruct (DEV w' && logger w').
  - intros target. by apply try_catch_resolves.
  - intros target. by apply try_catch_resolves.
Qed.

(** *** Fullscreen *)

(** X19.  Fullscreen without the orientation adapter.  On a supported
    adapter, [enterFullscreen] does nothing when fullscreen is active
    already and [exitFullscreen] nothing when it is not.  With no
    orientation preference, or with an orientation adapter that is not
    supported, [enterFullscreen] calls [enter()] alone; with the
    orientation not locked, [exitFullscreen] calls [exit()] alone.  The
    promise either returns is the adapter's. *)
Theorem fullscreen_without_orientation (target : option FullscreenTarget)
    (w : World) (owner : FsOwner) (a : FullscreenAdapter) :
  select_fs (default target_prefer_media target) w = Some (owner, a) →
  fs_supported a = true →
  (fs_active a = true → enterFullscreen target w = (Ok (), w)) ∧
  (fs_active a = false → exitFullscreen target w = (Ok (), w)) ∧
  (fs_active a = false →
   fullscreenOrientation w = None ∨ o_supported (orientation w) = false →
   (enterFullscreen target w).1
   = match enter_rejects a with Some e => Throw e | None => Ok () end ∧
   new_effects w (enterFullscreen target w).2 = [fs_enter owner]) ∧
  (fs_active a = true →
   o_locked (orientation w) = false →
   (exitFullscreen target w).1
   = match exit_rejects a with Some e => Throw e | None => Ok () end ∧
   new_effects w (exitFullscreen target w).2 = [fs_exit owner]).
Proof.
  intros Hfs Hsupp.
  unfold enterFullscreen, exitFullscreen, throwIfFullscreenNotSupported,
    await_orientation_lock, await_orientation_unlock. step.
  split; [| split; [| split]].
  - intros Hactive. cbn. by rewrite Hfs, Hsupp, Hactive.
  - intros Hactive. cbn. by rewrite Hfs, Hsupp, Hactive.
  - intros Hactive Hnolock. cbn. rewrite Hfs, Hsupp, Hactive. cbn.
    destruct Hnolock as [Hnone | Hunsupported].
    + rewrite Hnone. cbn.
      destruct (enter_rejects a); cbn; (split; [done | solve_effects]).
    + rewrite Hunsupported.
      destruct (fullscreenOrientation w), (enter_rejects a); cbn;
        (split; [done | solve_effects]).
  - intros Hactive Hunlocked. cbn. rewrite Hfs, Hsupp, Hactive. cbn.
    rewrite Hunlocked. cbn.
    destruct (exit_rejects a); cbn; (split; [done | solve_effects]).
Qed.

Lemma fullscreen_without_orientation_witness :
  new_effects sample_world (enterFullscreen None sample_world).2
  = [fs_enter PlayerFs].
Proof.
  destruct (fullscreen_without_orientation None sample_world PlayerFs
              sample_fullscreen eq_refl eq_refl) as (_ & _ & Henter & _).
  destruct (Henter eq_refl (or_introl eq_refl)) as [_ Hmade].
  exact Hmade.
Defined.

(** X20.  The [canFullscreen] flag of the store and the default target.
    Whatever the flag was, after a run of its effect it says whether the
    player's adapter or the provider's is supported.  It is up exactly when
    the default target, prefer-media, resolves to a supported adapter: the
    player's when that one is supported, the provider's otherwise.  An
    explicit target is not covered by the flag: with the player's adapter
    unsupported, target media throws even when the flag is up. *)
Theorem canFullscreen_is_default_target_support (w : World) (canFullscreen : bool) :
  canFullscreenEffect w canFullscreen = supported w ∧
  (supported w = true ↔
   ∃ owner a, select_fs target_prefer_media w = Some (owner, a) ∧
              fs_supported a = true ∧
              (owner = PlayerFs ↔ fs_supported (fullscreen w) = true)) ∧
  (fs_supported (fullscreen w) = false →
   enterFullscreen (Some target_media) w
   = (Throw (Error (noFullscreenMessage (DEV w) target_media)), w)).
Proof.
  split; [| split].
  - unfold canFullscreenEffect.
    destruct (canLoad (media w)); [| done]. cbn.
    by case_bool_decide.
  - unfold supported, select_fs. cbn.
    destruct (fs_supported (fullscreen w)) eqn:Hplayer; cbn.
    + split; [| done]. intros _. exists PlayerFs, (fullscreen w). by rewrite Hplayer.
    + destruct (provider w) as [p|]; [destruct (p_fullscreen p) as [a|] |].
      * split.
        -- intros Ha. exists ProviderFs, a. by rewrite Ha.
        -- by intros (owner & a' & [= <- <-] & Ha & _).
      * split; [done |]. by intros (owner & a' & [=] & _).
      * split; [done |]. by intros (owner & a' & [=] & _).
  - intros Hplayer.
    assert (Hmedia : select_fs target_media w = Some (PlayerFs, fullscreen w)).
    { unfold select_fs. rewrite (bool_decide_true (target_media = target_media)) by done.
      by rewrite orb_true_r. }
    unfold enterFullscreen, throwIfFullscreenNotSupported. step. cbn.
    by rewrite Hmedia, Hplayer.
Qed.

(** *** Requests that do not need the provider *)

(** X21.  The requests that do not use the provider (start loading,
    seeking, the two idle requests and the two poster requests): the
    listener returns normally and the provider is left alone, whether one
    is attached or not. *)
Theorem provider_independent_requests (event : RequestEvent) (w : World) :
  provider_dependent (dispatch_request event) = false →
  (run (dispatch_request event) w).1 = Ok () ∧
  provider_untouched w (run (dispatch_request event) w).2.
Proof.
  intros Hindependent. simpl.
  destruct (provider w) as [p|] eqn:Hp.
  - unfold listener, logRequest, eventHandlers,
      onStartLoading, onSeekingRequest, onResumeIdlingRequest,
      onPauseIdlingRequest, onShowPosterRequest, onHidePosterRequest,
      onLoopRequest.
    step. cbn in Hindependent.
    destruct (request event); try discriminate Hindependent;
      destruct (DEV w) eqn:Hdev, (logger w) eqn:Hlog;
      try destruct (canLoad (media w)) eqn:Hload;
      repeat first [progress cbn | rewrite Hp | rewrite Hdev | rewrite Hlog
                   | rewrite Hload];
      (split; [done |]);
      (eapply untouched_app;
       [done | cbn; rewrite <- ?app_assoc; reflexivity | by repeat constructor]).
  - rewrite listener_without_provider by done. split; [done |].
    eapply untouched_app; [done | done |].
    destruct (DEV w && logger w); by repeat constructor.
Qed.

Lemma provider_independent_requests_witness :
  provider_untouched sample_world
    (run (dispatch_request (sample_event (media_seeking_request (Fin 30))))
       sample_world).2.
Proof.
  destruct (provider_independent_requests
              (sample_event (media_seeking_request (Fin 30))) sample_world eq_refl)
    as [_ Huntouched].
  exact Huntouched.
Defined.

End RequestManagerFacts.
